(** * MP3 drag-and-drop player: playlist and playback state machine

    A shallow embedding of [script.js] (and of the earlier revision of the
    same script, kept in [Module Legacy]) together with the properties of
    the playlist / playback controller, the file validator and the time
    formatter.

    Conventions of the embedding:
    - the three global variables [playlist], [currentTrackIndex] and
      [isPlaying], the [<audio>] element and the DOM nodes the script writes
      to are fields of one [State] record; every JavaScript function is a
      computation in a state-and-exception monad [JS], because a function
      that throws half way leaves the assignments made so far in place;
    - array indices and the current index are [Z] (the script stores [-1]
      and computes [length - 1] on an empty array);
    - an object URL is the serial number of the [URL.createObjectURL] call
      that made it: the browser hands out a fresh URL on every call;
    - calls into the host (object URLs, the audio element, console,
      notifications) are also appended to an effect log, oldest first;
    - [renderPlaylist] writes each track name into the markup of its row
      and then looks the remove button up in the parsed row; whether the
      browser's HTML parser leaves a button there is decided by the name.
      For a name without [<] it does, for a name that opens a comment and
      never closes it it does not; for the other names the verdict of the
      parser is a parameter of the development ([HtmlParser]);
    - a finite number is an exact rational. For the times the audio
      element reports this agrees with the binary64 results of the script
      below [2^53] seconds, and the statements on [formatTime] stay in that
      range. *)

From Stdlib Require Import ZArith QArith Qround Lia Ascii String.
From stdpp Require Import base list.

Open Scope Z_scope.

(** ** Data model *)

Definition Url := nat.

Record File := mkFile {
  file_name : string;
  file_size : Z;
  file_type : string
}.

Record Track := mkTrack {
  name : string;
  file : File;
  url : Url
}.

(** The text of the play button: ['▶'] or ['⏸']. *)
Inductive Glyph := GlyphPlay | GlyphPause.

Inductive Severity := info | warning | error.

(** The [<audio>] element. [src = None] is the empty source; assigning
    [src] starts the element's load algorithm, which pauses it and rewinds
    to position 0. *)
Record Audio := mkAudio {
  src : option Url;
  paused : bool;
  position : Z
}.

Inductive Effect :=
| CreateObjectURL (u : Url)
| RevokeObjectURL (u : Url)
| SetSrc (u : option Url)
| AudioPlay
| AudioPause
| ConsoleWarn (msg : string)
| ConsoleError (msg : string)
| Notification (msg : string) (type : Severity).

(** One [<li>] appended to the list: the track name written into its
    markup (what the page shows is the browser's parse of that markup) and
    whether it carries the [active] class. The row at position [i] owns the
    two click handlers that close over [i]. *)
Record Row := mkRow {
  row_name : string;
  active : bool
}.

Record State := mkState {
  playlist : list Track;
  currentTrackIndex : Z;
  isPlaying : bool;
  audioPlayer : Audio;
  currentTrackEl : option string;
  playBtn : Glyph;
  playlistItems : list Row;
  minted : nat;
  effects : list Effect
}.

(** [currentTrackEl = None] stands for the text the page's markup starts
    with (the markup is not part of the script). *)
Definition initial : State :=
  {| playlist := [];
     currentTrackIndex := -1;
     isPlaying := false;
     audioPlayer := {| src := None; paused := true; position := 0 |};
     currentTrackEl := None;
     playBtn := GlyphPlay;
     playlistItems := [];
     minted := 0;
     effects := [] |}.

Definition MAX_FILE_SIZE : Z := 50 * 1024 * 1024.

(** ** Field updates *)

Definition with_playlist (l : list Track) (s : State) : State :=
  mkState l (currentTrackIndex s) (isPlaying s) (audioPlayer s)
          (currentTrackEl s) (playBtn s) (playlistItems s) (minted s) (effects s).

Definition with_currentTrackIndex (i : Z) (s : State) : State :=
  mkState (playlist s) i (isPlaying s) (audioPlayer s)
          (currentTrackEl s) (playBtn s) (playlistItems s) (minted s) (effects s).

Definition with_isPlaying (b : bool) (s : State) : State :=
  mkState (playlist s) (currentTrackIndex s) b (audioPlayer s)
          (currentTrackEl s) (playBtn s) (playlistItems s) (minted s) (effects s).

Definition with_audioPlayer (a : Audio) (s : State) : State :=
  mkState (playlist s) (currentTrackIndex s) (isPlaying s) a
          (currentTrackEl s) (playBtn s) (playlistItems s) (minted s) (effects s).

Definition with_currentTrackEl (t : option string) (s : State) : State :=
  mkState (playlist s) (currentTrackIndex s) (isPlaying s) (audioPlayer s)
          t (playBtn s) (playlistItems s) (minted s) (effects s).

Definition with_playBtn (g : Glyph) (s : State) : State :=
  mkState (playlist s) (currentTrackIndex s) (isPlaying s) (audioPlayer s)
          (currentTrackEl s) g (playlistItems s) (minted s) (effects s).

Definition with_playlistItems (r : list Row) (s : State) : State :=
  mkState (playlist s) (currentTrackIndex s) (isPlaying s) (audioPlayer s)
          (currentTrackEl s) (playBtn s) r (minted s) (effects s).

Definition with_minted (n : nat) (s : State) : State :=
  mkState (playlist s) (currentTrackIndex s) (isPlaying s) (audioPlayer s)
          (currentTrackEl s) (playBtn s) (playlistItems s) n (effects s).

Definition emit (e : Effect) (s : State) : State :=
  mkState (playlist s) (currentTrackIndex s) (isPlaying s) (audioPlayer s)
          (currentTrackEl s) (playBtn s) (playlistItems s) (minted s)
          (effects s ++ [e]).

(** ** The monad of JavaScript statements *)

Inductive Exn := TypeError (msg : string).

Inductive Completion (A : Type) :=
| Normal (a : A)
| Throw (e : Exn).
Arguments Normal {A} a.
Arguments Throw {A} e.

Definition JS (A : Type) : Type := State -> Completion A * State.

Definition ret {A} (a : A) : JS A := fun s => (Normal a, s).

Definition bind {A B} (m : JS A) (k : A -> JS B) : JS B :=
  fun s =>
    match m s with
    | (Normal a, s1) => k a s1
    | (Throw e, s1) => (Throw e, s1)
    end.

Definition throw {A} (e : Exn) : JS A := fun s => (Throw e, s).

Definition try_catch {A} (body : JS A) (handler : Exn -> JS A) : JS A :=
  fun s =>
    match body s with
    | (Normal a, s1) => (Normal a, s1)
    | (Throw e, s1) => handler e s1
    end.

Definition gets {A} (f : State -> A) : JS A := fun s => (Normal (f s), s).

Definition modify (f : State -> State) : JS unit := fun s => (Normal tt, f s).

Definition when (b : bool) (m : JS unit) : JS unit := if b then m else ret tt.

Notation "x <- m ;; k" := (bind m (fun x => k))
  (at level 100, m at next level, right associativity).
Notation "m ;; k" := (bind m (fun _ => k))
  (at level 100, right associativity).

(** The state in which a handler leaves the page, whether it returned or
    threw: the event loop goes on from there. *)
Definition exec {A} (m : JS A) (s : State) : State := snd (m s).

Definition completion {A} (m : JS A) (s : State) : Completion A := fst (m s).

(** ** Arrays *)

(** [a[i]]: [None] is [undefined]. *)
Definition js_nth {A} (a : list A) (i : Z) : option A :=
  if i <? 0 then None else a !! Z.to_nat i.

(** [a.length] *)
Definition js_length {A} (a : list A) : Z := Z.of_nat (length a).

(** [a.splice(start, 1)]: a negative [start] counts from the end, a [start]
    past the end removes nothing. *)
Definition js_splice1 {A} (start : Z) (a : list A) : list A :=
  let len := js_length a in
  let from := if start <? 0 then Z.max (len + start) 0 else Z.min start len in
  delete (Z.to_nat from) a.

(** Reading a property of [a[i]]: a [TypeError] when [a[i]] is [undefined]. *)
Definition property {A B} (o : option A) (prop : A -> B) : JS B :=
  match o with
  | Some x => ret (prop x)
  | None => throw (TypeError "Cannot read properties of undefined")
  end.

(** ** Host calls *)

Definition createObjectURL (f : File) : JS Url :=
  fun s => let u := minted s in
           (Normal u, emit (CreateObjectURL u) (with_minted (S u) s)).

Definition revokeObjectURL (u : Url) : JS unit := modify (emit (RevokeObjectURL u)).

Definition audio_set_src (u : option Url) : JS unit :=
  modify (fun s => emit (SetSrc u)
            (with_audioPlayer {| src := u; paused := true; position := 0 |} s)).

(** [audioPlayer.play()] reports a failure through its promise and the
    [error] event, never by throwing into the caller. *)
Definition audio_play : JS unit :=
  modify (fun s => emit AudioPlay
            (with_audioPlayer {| src := src (audioPlayer s); paused := false;
                                 position := position (audioPlayer s) |} s)).

Definition audio_pause : JS unit :=
  modify (fun s => emit AudioPause
            (with_audioPlayer {| src := src (audioPlayer s); paused := true;
                                 position := position (audioPlayer s) |} s)).

Definition console_warn (msg : string) : JS unit := modify (emit (ConsoleWarn msg)).
Definition console_error (msg : string) : JS unit := modify (emit (ConsoleError msg)).

(** The notification removes itself three seconds later; only its
    appearance is recorded. *)
Definition showNotification (message : string) (type : Severity) : JS unit :=
  modify (emit (Notification message type)).

(** ** Strings *)

Open Scope string_scope.
Open Scope Z_scope.

(** [c.toLowerCase()] on the ASCII range. *)
Definition lower_ascii (c : ascii) : ascii :=
  let n := nat_of_ascii c in
  if ((65 <=? n) && (n <=? 90))%nat then ascii_of_nat (n + 32) else c.

Fixpoint toLowerCase (s : string) : string :=
  match s with
  | EmptyString => EmptyString
  | String c s' => String (lower_ascii c) (toLowerCase s')
  end.

(** [s.endsWith(suffix)] *)
Fixpoint endsWith (s suffix : string) : bool :=
  (s =? suffix)%string ||
  match s with
  | EmptyString => false
  | String _ s' => endsWith s' suffix
  end.

(** Does [c] occur in [s]? *)
Fixpoint has_char (c : ascii) (s : string) : bool :=
  match s with
  | EmptyString => false
  | String d s' => Ascii.eqb c d || has_char c s'
  end.

(** [s.startsWith(p)] *)
Fixpoint startsWith (s p : string) : bool :=
  match p, s with
  | EmptyString, _ => true
  | String c p', String d s' => Ascii.eqb c d && startsWith s' p'
  | String _ _, EmptyString => false
  end.

(** [array.includes(x)] on an array of strings *)
Definition includes (array : list string) (x : string) : bool :=
  existsb (String.eqb x) array.

(** [array.some(p)] *)
Definition some {A} (array : list A) (p : A -> bool) : bool := existsb p array.

(** The tail of the pattern [/\.[^/.]+$/] after its dot: one or more
    characters, none of them a slash or a dot, up to the end of the string. *)
Fixpoint extension_tail (s : string) : bool :=
  match s with
  | EmptyString => false
  | String c s' =>
      negb (Ascii.eqb c "/") && negb (Ascii.eqb c ".") &&
      match s' with
      | EmptyString => true
      | _ => extension_tail s'
      end
  end.

(** [s.replace(/\.[^/.]+$/, '')]: the leftmost match is cut, and a match
    always runs to the end of the string. *)
Fixpoint replace_extension (s : string) : string :=
  match s with
  | EmptyString => EmptyString
  | String c s' =>
      if Ascii.eqb c "." && extension_tail s' then EmptyString
      else String c (replace_extension s')
  end.

(** Decimal digits of a non-negative integer, most significant first. *)
Definition digit_char (d : Z) : ascii := ascii_of_nat (48 + Z.to_nat d).

Fixpoint digits_fuel (fuel : nat) (n : Z) (acc : string) : string :=
  match fuel with
  | O => acc
  | S fuel' =>
      let acc' := String (digit_char (n mod 10)) acc in
      if n <? 10 then acc' else digits_fuel fuel' (n / 10) acc'
  end.

(** [n.toString()] for an integer [n]; the fuel is the bit length of [n],
    which bounds its number of decimal digits. JavaScript switches to
    exponent notation from [10^21] on, which is outside the use made here. *)
Definition int_toString (n : Z) : string :=
  if n <? 0 then String "-" (digits_fuel (S (Z.to_nat (Z.log2 (- n)))) (- n) "")
  else digits_fuel (S (Z.to_nat (Z.log2 n))) n "".

(** [s.padStart(targetLength, padString)] *)
Fixpoint pad_cycle (n : nat) (padString rest : string) : string :=
  match n with
  | O => EmptyString
  | S n' =>
      match rest with
      | String c rest' => String c (pad_cycle n' padString rest')
      | EmptyString =>
          match padString with
          | String c rest' => String c (pad_cycle n' padString rest')
          | EmptyString => EmptyString
          end
      end
  end.

Definition padStart (targetLength : nat) (padString : string) (s : string) : string :=
  if (targetLength <=? String.length s)%nat then s
  else pad_cycle (targetLength - String.length s) padString padString ++ s.

(** ** Numbers and [formatTime]

    A JavaScript number is [NaN], an infinity or a finite value; finite
    values are exact rationals here (the sign of zero is left out). On
    binary64 inputs of magnitude below [2^53] the script computes the same:
    [x % 60] and [Math.floor] are exact, and the rounded quotient [x / 60]
    has the floor of the exact one; an integer of that size prints as its
    plain decimal digits. *)

Inductive number :=
| NaN
| Infinity (negative : bool)
| Finite (q : Q).

(** The values [Math.floor] can return: it maps [NaN] and the infinities to
    themselves and a finite number to an integer. *)
Inductive integral :=
| INaN
| IInfinity (negative : bool)
| IInt (z : Z).

Definition isNaN (x : number) : bool :=
  match x with NaN => true | _ => false end.

Definition Qneg (q : Q) : bool := (Qnum q <? 0)%Z.

Definition Qzero (q : Q) : bool := (Qnum q =? 0)%Z.

(** Rounding towards zero. *)
Definition Qtrunc (q : Q) : Z := Z.quot (Qnum q) (Zpos (Qden q)).

(** [x / y] *)
Definition num_div (x y : number) : number :=
  match x, y with
  | NaN, _ | _, NaN => NaN
  | Infinity _, Infinity _ => NaN
  | Infinity n, Finite d => Infinity (xorb n (Qneg d))
  | Finite _, Infinity _ => Finite 0
  | Finite q, Finite d =>
      if Qzero d then (if Qzero q then NaN else Infinity (Qneg q))
      else Finite (q / d)
  end.

(** [x % y]: the remainder has the sign of the dividend. *)
Definition num_rem (x y : number) : number :=
  match x, y with
  | NaN, _ | _, NaN => NaN
  | Infinity _, _ => NaN
  | Finite q, Infinity _ => Finite q
  | Finite q, Finite d =>
      if Qzero d then NaN
      else Finite (q - d * inject_Z (Qtrunc (q / d)))
  end.

Definition Math_floor (x : number) : integral :=
  match x with
  | NaN => INaN
  | Infinity n => IInfinity n
  | Finite q => IInt (Qfloor q)
  end.

(** [x.toString()], which the template literal applies to [mins] as well. *)
Definition toString (x : integral) : string :=
  match x with
  | INaN => "NaN"
  | IInfinity false => "Infinity"
  | IInfinity true => "-Infinity"
  | IInt z => int_toString z
  end.

Definition sixty : number := Finite (60 # 1).

Definition formatTime (seconds : number) : string :=
  if isNaN seconds then "0:00"
  else
    let mins := Math_floor (num_div seconds sixty) in
    let secs := Math_floor (num_rem seconds sixty) in
    toString mins ++ ":" ++ padStart 2 "0" (toString secs).

Definition of_Z (z : Z) : number := Finite (inject_Z z).

(** ** File validation *)

Definition validMimeTypes : list string :=
  ["audio/mp3"; "audio/mpeg"; "audio/x-mpeg"; "audio/mpeg3";
   "audio/mpg"; "audio/x-mpg"; "audio/x-mpeg-3"].

Definition validExtensions : list string :=
  [".mp3"; ".mp2"; ".mpga"; ".mpg"; ".mpeg"].

Definition checkIfMp3 (file : File) : bool :=
  if includes validMimeTypes (file_type file) then true
  else
    let fileName := toLowerCase (file_name file) in
    some validExtensions (fun ext => endsWith fileName ext).

Definition warn_too_large (file : File) : string :=
  "File " ++ file_name file ++ " exceeds 50MB limit".

Definition warn_not_mp3 (file : File) : string :=
  "File " ++ file_name file ++ " is not a valid MP3 file".

(** ** Rendered rows and the browser's HTML parser

    [parser_finds_button name] is the verdict of the browser on a row whose
    markup was built from [name]: is there an element of class
    [remove-btn] in the parsed row? It is consulted only for names the two
    rules below leave open. *)
Class HtmlParser := parser_finds_button : string -> bool.

(** [li.querySelector('.remove-btn')] is not [null]. In a name without
    [<] the parser sees text and character references only, and the button
    of the template follows; a name that starts with the comment opener and
    has no [>] opens a comment that nothing in the rest of the template
    closes, so the button is swallowed. *)
Definition remove_btn_found `{HtmlParser} (name : string) : bool :=
  if negb (has_char "<" name) then true
  else if startsWith name "<!--" && negb (has_char ">" name) then false
  else parser_finds_button name.

(** A parser for the sample pages; none of their names is left open, so
    its verdicts are never asked for. *)
Definition sample_parser : HtmlParser := fun _ => false.

(** ** The playlist and playback controller *)

Section Script.

Context {parser : HtmlParser}.

(** The callback of [playlist.forEach], row by row: the [<li>] gets its
    class and its markup, and [li.querySelector('.remove-btn')] is
    dereferenced before the row is appended, so a row without the button
    throws and leaves the rows rendered so far. *)
Fixpoint render_rows (tracks : list Track) (index : nat) : JS unit :=
  match tracks with
  | [] => ret tt
  | track :: rest =>
      cur <- gets currentTrackIndex ;;
      let li := {| row_name := name track; active := Z.of_nat index =? cur |} in
      if remove_btn_found (name track) then
        modify (fun s => with_playlistItems (playlistItems s ++ [li]) s) ;;
        render_rows rest (S index)
      else throw (TypeError "Cannot read properties of null")
  end.

Definition renderPlaylist : JS unit :=
  modify (with_playlistItems []) ;;
  tracks <- gets playlist ;;
  render_rows tracks 0.

Definition playTrack : JS unit :=
  try_catch
    (audio_play ;;
     modify (with_playBtn GlyphPause) ;;
     modify (with_isPlaying true))
    (fun _ =>
       console_error "Error playing audio:" ;;
       showNotification "Error playing audio file" error).

Definition pauseTrack : JS unit :=
  audio_pause ;;
  modify (with_playBtn GlyphPlay) ;;
  modify (with_isPlaying false).

Definition loadTrack (index : Z) : JS unit :=
  modify (with_currentTrackIndex index) ;;
  track <- gets (fun s => js_nth (playlist s) index) ;;
  u <- property track url ;;
  audio_set_src (Some u) ;;
  n <- property track name ;;
  modify (with_currentTrackEl (Some n)) ;;
  renderPlaylist ;;
  playTrack.

Definition removeTrack (index : Z) : JS unit :=
  track <- gets (fun s => js_nth (playlist s) index) ;;
  u <- property track url ;;
  revokeObjectURL u ;;
  modify (fun s => with_playlist (js_splice1 index (playlist s)) s) ;;
  cur <- gets currentTrackIndex ;;
  (if index =? cur then
     len <- gets (fun s => js_length (playlist s)) ;;
     if len >? 0 then
       loadTrack (Z.min index (len - 1))
     else
       modify (with_currentTrackIndex (-1)) ;;
       audio_pause ;;
       audio_set_src None ;;
       modify (with_currentTrackEl (Some "No track selected"%string)) ;;
       modify (with_playBtn GlyphPlay) ;;
       modify (with_isPlaying false)
   else if index <? cur then
     modify (with_currentTrackIndex (cur - 1))
   else ret tt) ;;
  renderPlaylist.

Definition togglePlay : JS unit :=
  cur <- gets currentTrackIndex ;;
  if cur =? -1 then
    len <- gets (fun s => js_length (playlist s)) ;;
    if len >? 0 then loadTrack 0
    else showNotification "Please add MP3 files to the playlist" warning
  else
    playing <- gets isPlaying ;;
    if playing then pauseTrack else playTrack.

Definition playPrev : JS unit :=
  cur <- gets currentTrackIndex ;;
  if cur >? 0 then loadTrack (cur - 1)
  else
    len <- gets (fun s => js_length (playlist s)) ;;
    loadTrack (len - 1).

Definition playNext : JS unit :=
  cur <- gets currentTrackIndex ;;
  len <- gets (fun s => js_length (playlist s)) ;;
  if cur <? len - 1 then loadTrack (cur + 1)
  else loadTrack 0.

Definition handleAudioError : JS unit :=
  console_error "Audio player error:" ;;
  showNotification "Error with audio file" error ;;
  pauseTrack.

(** The [for (let file of files)] loop; [validFiles] and [invalidFiles] are
    its two counters. *)
Fixpoint handleFiles_loop (files : list File) (validFiles invalidFiles : Z)
  : JS (Z * Z) :=
  match files with
  | [] => ret (validFiles, invalidFiles)
  | file :: rest =>
      if file_size file >? MAX_FILE_SIZE then
        console_warn (warn_too_large file) ;;
        handleFiles_loop rest validFiles (invalidFiles + 1)
      else
        let isMp3 := checkIfMp3 file in
        if isMp3 then
          u <- createObjectURL file ;;
          let track := {| name := replace_extension (file_name file);
                          file := file;
                          url := u |} in
          modify (fun s => with_playlist (playlist s ++ [track]) s) ;;
          handleFiles_loop rest (validFiles + 1) invalidFiles
        else
          console_warn (warn_not_mp3 file) ;;
          handleFiles_loop rest validFiles (invalidFiles + 1)
  end.

Definition handleFiles (files : list File) : JS unit :=
  counts <- handleFiles_loop files 0 0 ;;
  let validFiles := fst counts in
  let invalidFiles := snd counts in
  when (invalidFiles >? 0)
    (showNotification
       ("Skipped " ++ int_toString invalidFiles ++ " invalid file(s)") warning) ;;
  when (validFiles >? 0)
    (renderPlaylist ;;
     cur <- gets currentTrackIndex ;;
     when (cur =? -1) (loadTrack 0)).

End Script.

(** ** The earlier revision of the script

    It differs in [handleFiles] (two media types, no size limit, no
    counters), in [playTrack] (no [try]) and in [togglePlay] (no notice on
    an empty playlist); [removeTrack], [playPrev] and [playNext] read the
    same. *)
Module Legacy.

Section LegacyScript.

Context {parser : HtmlParser}.

Definition playTrack : JS unit :=
  audio_play ;;
  modify (with_playBtn GlyphPause) ;;
  modify (with_isPlaying true).

Definition loadTrack (index : Z) : JS unit :=
  modify (with_currentTrackIndex index) ;;
  track <- gets (fun s => js_nth (playlist s) index) ;;
  u <- property track url ;;
  audio_set_src (Some u) ;;
  n <- property track name ;;
  modify (with_currentTrackEl (Some n)) ;;
  renderPlaylist ;;
  playTrack.

Fixpoint handleFiles_loop (files : list File) : JS unit :=
  match files with
  | [] => ret tt
  | file :: rest =>
      if (file_type file =? "audio/mp3")%string || (file_type file =? "audio/mpeg")%string then
        u <- createObjectURL file ;;
        let track := {| name := replace_extension (file_name file);
                        file := file;
                        url := u |} in
        modify (fun s => with_playlist (playlist s ++ [track]) s) ;;
        handleFiles_loop rest
      else handleFiles_loop rest
  end.

Definition handleFiles (files : list File) : JS unit :=
  handleFiles_loop files ;;
  len <- gets (fun s => js_length (playlist s)) ;;
  when (len >? 0)
    (renderPlaylist ;;
     cur <- gets currentTrackIndex ;;
     when (cur =? -1) (loadTrack 0)).

Definition togglePlay : JS unit :=
  cur <- gets currentTrackIndex ;;
  if cur =? -1 then
    len <- gets (fun s => js_length (playlist s)) ;;
    when (len >? 0) (loadTrack 0)
  else
    playing <- gets isPlaying ;;
    if playing then pauseTrack else playTrack.

End LegacyScript.

End Legacy.

(** Closed facts about sample pages are settled by evaluation. *)
Ltac by_running := vm_compute; repeat split; first [reflexivity | discriminate].

(** ** Events of the page

    The handlers installed by [setupEventListeners] and by [renderPlaylist]
    that read or write the playlist, the selection or the play state. A row
    can only be clicked if it was appended to the list, and its handlers
    carry the position it was rendered at. The listeners that only drive
    the clock of the audio element and the progress display (the click on
    the progress bar, [timeupdate], [loadedmetadata]) and the drag
    highlighting are not among the events. *)

Section Page.

Context {parser : HtmlParser}.

Inductive Event :=
| FilesChosen (files : list File)
| RowClick (row : nat)
| RemoveClick (row : nat)
| PlayClick
| PrevClick
| NextClick
| Ended
| AudioError.

Definition on_row (row : nat) (handler : Z -> JS unit) : JS unit :=
  fun s =>
    if (row <? length (playlistItems s))%nat then handler (Z.of_nat row) s
    else (Normal tt, s).

Definition dispatch (ev : Event) : JS unit :=
  match ev with
  | FilesChosen files => handleFiles files
  | RowClick row => on_row row loadTrack
  | RemoveClick row => on_row row removeTrack
  | PlayClick => togglePlay
  | PrevClick => playPrev
  | NextClick => playNext
  | Ended => playNext
  | AudioError => handleAudioError
  end.

Definition run (evs : list Event) (s : State) : State :=
  foldl (fun s ev => exec (dispatch ev) s) s evs.

(** Sequences of the two structural operations, called directly. *)
Inductive StoreOp :=
| Add (files : list File)
| Remove (index : Z).

Definition apply_op (op : StoreOp) : JS unit :=
  match op with
  | Add files => handleFiles files
  | Remove index => removeTrack index
  end.

Definition run_ops (ops : list StoreOp) (s : State) : State :=
  foldl (fun s op => exec (apply_op op) s) s ops.

(** ** States named in the statements *)

(** The rows of the tracks [l], the one at [cur] highlighted. *)
Definition rows_of (l : list Track) (cur : Z) : list Row :=
  imap (fun index track =>
          {| row_name := name track; active := Z.of_nat index =? cur |}) l.

(** Every row of [l] gets its remove button: [renderPlaylist] runs through. *)
Definition renderable (l : list Track) : bool :=
  forallb (fun track => remove_btn_found (name track)) l.

(** The tracks in front of the first one whose row has no remove button:
    those are the rows [renderPlaylist] appends. *)
Fixpoint visible (l : list Track) : list Track :=
  match l with
  | [] => []
  | track :: rest =>
      if remove_btn_found (name track) then track :: visible rest else []
  end.

Definition null_error : Exn := TypeError "Cannot read properties of null".

(** How [renderPlaylist] ends on the tracks [l]. *)
Definition render_completion (l : list Track) : Completion unit :=
  if renderable l then Normal tt else Throw null_error.

(** The page after [loadTrack index] found [track] at [index] and every
    row could be rendered. *)
Definition loaded (index : Z) (track : Track) (s : State) : State :=
  {| playlist := playlist s;
     currentTrackIndex := index;
     isPlaying := true;
     audioPlayer := {| src := Some (url track); paused := false; position := 0 |};
     currentTrackEl := Some (name track);
     playBtn := GlyphPause;
     playlistItems := rows_of (visible (playlist s)) index;
     minted := minted s;
     effects := (effects s ++ [SetSrc (Some (url track))]) ++ [AudioPlay] |}.

(** The page [loadTrack index] leaves when it found [track] at [index] but
    [renderPlaylist] threw: the source is assigned, [playTrack] was not
    reached. *)
Definition stalled (index : Z) (track : Track) (s : State) : State :=
  {| playlist := playlist s;
     currentTrackIndex := index;
     isPlaying := isPlaying s;
     audioPlayer := {| src := Some (url track); paused := true; position := 0 |};
     currentTrackEl := Some (name track);
     playBtn := playBtn s;
     playlistItems := rows_of (visible (playlist s)) index;
     minted := minted s;
     effects := effects s ++ [SetSrc (Some (url track))] |}.

(** The selection is [-1] on an empty playlist and a valid index otherwise. *)
Definition StoreInv (s : State) : Prop :=
  (currentTrackIndex s = -1 /\ playlist s = []) \/
  (0 <= currentTrackIndex s < js_length (playlist s)).

Definition valid_index (s : State) (i : Z) : Prop :=
  0 <= i < js_length (playlist s).

(** The selection does not dangle: it is [-1] or a valid index. *)
Definition SelectionOk (s : State) : Prop :=
  currentTrackIndex s = -1 \/ valid_index s (currentTrackIndex s).

(** The page after [renderPlaylist], whether it ran through or threw. *)
Definition rendered (s : State) : State :=
  with_playlistItems (rows_of (visible (playlist s)) (currentTrackIndex s)) s.

(** The page after the first two statements of [removeTrack index], which
    found [track] at [index]: its URL revoked, the array spliced. *)
Definition removed (index : Z) (track : Track) (s : State) : State :=
  with_playlist (js_splice1 index (playlist s))
                (emit (RevokeObjectURL (url track)) s).

(** The page after [removeTrack] took the last track away. *)
Definition idle (s : State) : State :=
  {| playlist := playlist s;
     currentTrackIndex := -1;
     isPlaying := false;
     audioPlayer := {| src := None; paused := true; position := 0 |};
     currentTrackEl := Some "No track selected";
     playBtn := GlyphPlay;
     playlistItems := rows_of (visible (playlist s)) (-1);
     minted := minted s;
     effects := (effects s ++ [AudioPause]) ++ [SetSrc None] |}.

(** *** What the [handleFiles] loop does to the page

    [accept] is the branch of the loop body that pushes a track, [warn] the
    console output of the other branches. *)

Definition accepts (file : File) : bool :=
  negb (file_size file >? MAX_FILE_SIZE) && checkIfMp3 file.

Definition warning_for (file : File) : list Effect :=
  [ConsoleWarn (if file_size file >? MAX_FILE_SIZE then warn_too_large file
                else warn_not_mp3 file)].

Definition legacy_accepts (file : File) : bool :=
  (file_type file =? "audio/mp3")%string || (file_type file =? "audio/mpeg")%string.

Definition track_of (file : File) (u : Url) : Track :=
  {| name := replace_extension (file_name file); file := file; url := u |}.

Fixpoint tracks_of (accept : File -> bool) (n : nat) (files : list File) : list Track :=
  match files with
  | [] => []
  | f :: rest =>
      if accept f then track_of f n :: tracks_of accept (S n) rest
      else tracks_of accept n rest
  end.

Fixpoint loop_effects (accept : File -> bool) (warn : File -> list Effect)
         (n : nat) (files : list File) : list Effect :=
  match files with
  | [] => []
  | f :: rest =>
      if accept f then CreateObjectURL n :: loop_effects accept warn (S n) rest
      else warn f ++ loop_effects accept warn n rest
  end.

Definition after_loop (accept : File -> bool) (warn : File -> list Effect)
           (files : list File) (s : State) : State :=
  {| playlist := playlist s ++ tracks_of accept (minted s) files;
     currentTrackIndex := currentTrackIndex s;
     isPlaying := isPlaying s;
     audioPlayer := audioPlayer s;
     currentTrackEl := currentTrackEl s;
     playBtn := playBtn s;
     playlistItems := playlistItems s;
     minted := minted s + length (tracks_of accept (minted s) files);
     effects := effects s ++ loop_effects accept warn (minted s) files |}.

Definition count_valid (accept : File -> bool) (files : list File) : Z :=
  Z.of_nat (length (filter (fun f => accept f = true) files)).

Definition count_invalid (accept : File -> bool) (files : list File) : Z :=
  Z.of_nat (length (filter (fun f => accept f = false) files)).

(** The page after the loop and the notice about skipped files. *)
Definition after_notice (files : list File) (s : State) : State :=
  let s1 := after_loop accepts warning_for files s in
  if count_invalid accepts files >? 0 then
    emit (Notification ("Skipped " ++ int_toString (count_invalid accepts files)
                          ++ " invalid file(s)") warning) s1
  else s1.

(** How an addition that took the page from [s] to [s'] may touch the
    selection: not at all if there were tracks before; if there were none
    and some were added, the first of them is selected, loaded and playing. *)
Definition selection_after_add (s s' : State) : Prop :=
  (playlist s <> [] ->
     currentTrackIndex s' = currentTrackIndex s /\
     audioPlayer s' = audioPlayer s /\
     isPlaying s' = isPlaying s) /\
  (playlist s = [] ->
     match playlist s' with
     | [] => currentTrackIndex s' = currentTrackIndex s
     | first :: _ =>
         currentTrackIndex s' = 0 /\
         isPlaying s' = true /\
         audioPlayer s' = {| src := Some (url first); paused := false; position := 0 |}
     end).

(** *** Object URLs in the effect log *)

Definition revoked (log : list Effect) : list Url :=
  omap (fun e => match e with RevokeObjectURL u => Some u | _ => None end) log.

Definition created (log : list Effect) : list Url :=
  omap (fun e => match e with CreateObjectURL u => Some u | _ => None end) log.

(** Replaying the log from a page whose audio element has [source] loaded:
    is some URL revoked at a moment when it is the loaded source? *)
Fixpoint revoked_while_loaded (source : option Url) (log : list Effect) : bool :=
  match log with
  | [] => false
  | RevokeObjectURL u :: rest =>
      match source with
      | Some v => (u =? v)%nat || revoked_while_loaded source rest
      | None => revoked_while_loaded source rest
      end
  | SetSrc v :: rest => revoked_while_loaded v rest
  | _ :: rest => revoked_while_loaded source rest
  end.

(** Bookkeeping of object URLs: the URLs made so far are [0 .. minted - 1],
    each of them belongs to exactly one track still in the playlist or has
    been revoked, never both, and none was revoked twice. *)
Definition UrlInv (s : State) : Prop :=
  NoDup (url <$> playlist s) /\
  NoDup (revoked (effects s)) /\
  created (effects s) = seq 0 (minted s) /\
  (forall u, (u < minted s)%nat <->
             u ∈ url <$> playlist s \/ u ∈ revoked (effects s)) /\
  (forall u, u ∈ url <$> playlist s -> u ∉ revoked (effects s)).

(** The audio element has no source or the source of the selected track;
    the selection is at least [-1] and below the length, except that it may
    be [0] on the empty playlist (where [playNext] leaves it). *)
Definition SelInv (s : State) : Prop :=
  (src (audioPlayer s) = None \/
   exists t, js_nth (playlist s) (currentTrackIndex s) = Some t /\
             src (audioPlayer s) = Some (url t)) /\
  -1 <= currentTrackIndex s <= Z.max 0 (js_length (playlist s) - 1).

(** Every rendered row is the row of a track of the playlist. *)
Definition RowsInv (s : State) : Prop :=
  (length (playlistItems s) <= length (playlist s))%nat.

Definition PageInv (s : State) : Prop := UrlInv s /\ SelInv s /\ RowsInv s.

(** *** Validation, as the loop body decides it and as it is specified *)









(** *** The time format in the words of the specification *)

(** A value below 100 written with exactly two decimal digits. *)
Definition two_digits (k : Z) : string :=
  String (digit_char (k / 10)) (String (digit_char (k mod 10)) EmptyString).

(** Minutes, a colon, seconds on two digits, for a whole number of seconds. *)
Definition clock (whole_seconds : Z) : string :=
  int_toString (whole_seconds / 60) ++ ":" ++ two_digits (whole_seconds mod 60).

(** Sample pages used to exercise the statements. *)
Definition song (n : string) : File :=
  {| file_name := n; file_size := 4096; file_type := "audio/mpeg" |}.

(** A file whose name opens a comment: its row has no remove button. *)
Definition unclosed_comment : File := song "<!--.mp3".

Definition three_tracks : State :=
  exec (handleFiles [song "a.mp3"; song "b.mp3"; song "c.mp3"]) initial.

(** *** Further observations of a page *)






(** An extension as the pattern of [replace] wants it after the dot: not
    empty, without a dot or a slash. *)
Definition plain_extension (ext : string) : Prop :=
  ext <> EmptyString /\
  forall c, In c (list_ascii_of_string ext) -> c <> "."%char /\ c <> "/"%char.

(** The index [playNext] and [playPrev] pass to [loadTrack]. *)
Definition next_index (s : State) : Z :=
  if currentTrackIndex s <? js_length (playlist s) - 1
  then currentTrackIndex s + 1 else 0.


(** * Properties *)

(** ** Evaluating the monad *)

Ltac js_unfold :=
  unfold exec, completion, when, bind, ret, throw, gets, modify, try_catch, property in *.

(** Projections of the log of a page that made only audio, console or
    notification calls. *)
Ltac log_calc :=
  unfold revoked, created; cbn; rewrite ?omap_app; cbn; rewrite ?app_nil_r;
  reflexivity.

Lemma js_nth_Some {A} (a : list A) (i : Z) (x : A) :
  js_nth a i = Some x -> 0 <= i < js_length a.
Proof.
  unfold js_nth, js_length. destruct (Z.ltb_spec i 0); [discriminate|].
  intros H1. apply lookup_lt_Some in H1. lia.
Qed.

Lemma js_nth_None {A} (a : list A) (i : Z) :
  js_nth a i = None <-> ~ (0 <= i < js_length a).
Proof.
  unfold js_nth, js_length. destruct (Z.ltb_spec i 0).
  - split; [lia | reflexivity].
  - rewrite lookup_ge_None. lia.
Qed.

Lemma js_nth_valid {A} (a : list A) (i : Z) :
  0 <= i < js_length a -> exists x, js_nth a i = Some x.
Proof.
  intros H. destruct (js_nth a i) eqn:E; [eauto|].
  apply js_nth_None in E. contradiction.
Qed.

Lemma js_splice1_valid {A} (a : list A) (i : Z) :
  0 <= i < js_length a -> js_splice1 i a = delete (Z.to_nat i) a.
Proof.
  unfold js_splice1. intros H.
  destruct (Z.ltb_spec i 0); [lia|]. rewrite Z.min_l by lia. reflexivity.
Qed.

Lemma js_length_splice1 {A} (a : list A) (i : Z) :
  0 <= i < js_length a -> js_length (js_splice1 i a) = js_length a - 1.
Proof.
  intros H. rewrite js_splice1_valid by assumption.
  unfold js_length in *.
  assert (Hi : is_Some (a !! Z.to_nat i)) by (apply lookup_lt_is_Some_2; lia).
  pose proof (length_delete a (Z.to_nat i) Hi). lia.
Qed.

Lemma js_length_nil {A} (a : list A) : js_length a = 0 <-> a = [].
Proof.
  unfold js_length. split.
  - intros H. apply length_zero_iff_nil. lia.
  - intros ->. reflexivity.
Qed.

(** ** Rendering *)


Lemma visible_renderable l : renderable (visible l) = true.
Proof.
  induction l as [|t l IH]; [reflexivity|]. cbn.
  destruct (remove_btn_found (name t)) eqn:E; [|reflexivity].
  cbn. rewrite E. exact IH.
Qed.

Lemma length_visible l : (length (visible l) <= length l)%nat.
Proof.
  induction l as [|t l IH]; [reflexivity|]. cbn.
  destruct (remove_btn_found (name t)); cbn; lia.
Qed.



Lemma render_rows_eq tracks : forall index s,
  render_rows tracks index s =
  (render_completion tracks,
   with_playlistItems
     (playlistItems s ++
      imap (fun i track =>
              {| row_name := name track;
                 active := Z.of_nat (index + i) =? currentTrackIndex s |})
           (visible tracks)) s).
Proof.
  induction tracks as [|t tracks IH]; intros index s.
  - destruct s. cbn. unfold ret. cbn. rewrite app_nil_r. reflexivity.
  - cbn [render_rows visible]. unfold render_completion. cbn [renderable forallb].
    js_unfold. destruct (remove_btn_found (name t)) eqn:E.
    + rewrite IH. cbn [andb]. unfold render_completion. f_equal.
      unfold with_playlistItems. cbn. f_equal.
      rewrite <- app_assoc. cbn. rewrite Nat.add_0_r. do 2 f_equal.
      apply imap_ext. intros i x _. cbn. do 3 f_equal. lia.
    + cbn. destruct s. cbn. rewrite app_nil_r. reflexivity.
Qed.

Lemma renderPlaylist_eq s :
  renderPlaylist s = (render_completion (playlist s), rendered s).
Proof.
  unfold renderPlaylist. js_unfold. cbn. rewrite render_rows_eq. reflexivity.
Qed.

(** ** Loading and removing, step by step *)

#[local] Arguments renderPlaylist : simpl never.

Lemma playTrack_eq s :
  playTrack s =
  (Normal tt,
   with_isPlaying true (with_playBtn GlyphPause
     (emit AudioPlay
        (with_audioPlayer {| src := src (audioPlayer s); paused := false;
                             position := position (audioPlayer s) |} s)))).
Proof. reflexivity. Qed.

Lemma legacy_playTrack_eq s : Legacy.playTrack s = playTrack s.
Proof. reflexivity. Qed.

Lemma loadTrack_found index track s :
  js_nth (playlist s) index = Some track ->
  loadTrack index s =
  if renderable (playlist s) then (Normal tt, loaded index track s)
  else (Throw null_error, stalled index track s).
Proof.
  intros H. unfold loadTrack. js_unfold. cbn. rewrite H. cbn.
  rewrite renderPlaylist_eq. unfold render_completion, renderable. cbn.
  destruct (forallb _ (playlist s)); reflexivity.
Qed.

Lemma loadTrack_missing index s :
  js_nth (playlist s) index = None ->
  loadTrack index s =
  (Throw (TypeError "Cannot read properties of undefined"),
   with_currentTrackIndex index s).
Proof.
  intros H. unfold loadTrack. js_unfold. cbn. rewrite H. reflexivity.
Qed.

Lemma legacy_loadTrack_eq index s : Legacy.loadTrack index s = loadTrack index s.
Proof. reflexivity. Qed.

Lemma removeTrack_missing index s :
  js_nth (playlist s) index = None ->
  removeTrack index s =
  (Throw (TypeError "Cannot read properties of undefined"), s).
Proof.
  intros H. unfold removeTrack. js_unfold. cbn. rewrite H. reflexivity.
Qed.

Lemma removeTrack_found index track s :
  js_nth (playlist s) index = Some track ->
  removeTrack index s =
  let s1 := removed index track s in
  let cur := currentTrackIndex s in
  if index =? cur then
    if js_length (playlist s1) >? 0 then
      match loadTrack (Z.min index (js_length (playlist s1) - 1)) s1 with
      | (Normal _, s2) => (render_completion (playlist s2), rendered s2)
      | (Throw e, s2) => (Throw e, s2)
      end
    else (render_completion (playlist s1), idle s1)
  else if index <? cur then
    (render_completion (playlist s1),
     rendered (with_currentTrackIndex (cur - 1) s1))
  else (render_completion (playlist s1), rendered s1).
Proof.
  intros H. unfold removeTrack, removed. js_unfold. rewrite H.
  unfold revokeObjectURL, modify. simpl.
  destruct (index =? currentTrackIndex s); simpl.
  - destruct (js_length (js_splice1 index (playlist s)) >? 0); simpl.
    + destruct (loadTrack _ _) as [[[]|e] s2]; [apply renderPlaylist_eq | reflexivity].
    + rewrite renderPlaylist_eq. reflexivity.
  - destruct (index <? currentTrackIndex s); rewrite renderPlaylist_eq; reflexivity.
Qed.

(** Removing the selected track while others remain: the clamped index is
    loaded. *)
Lemma removeTrack_current index track track' s :
  js_nth (playlist s) index = Some track ->
  index = currentTrackIndex s ->
  js_nth (js_splice1 index (playlist s))
         (Z.min index (js_length (js_splice1 index (playlist s)) - 1)) = Some track' ->
  removeTrack index s =
  if renderable (js_splice1 index (playlist s)) then
    (Normal tt,
     loaded (Z.min index (js_length (js_splice1 index (playlist s)) - 1)) track'
            (removed index track s))
  else
    (Throw null_error,
     stalled (Z.min index (js_length (js_splice1 index (playlist s)) - 1)) track'
             (removed index track s)).
Proof.
  intros H Hc H'. rewrite (removeTrack_found _ _ _ H). cbn zeta.
  rewrite <- Hc, Z.eqb_refl.
  pose proof (js_nth_Some _ _ _ H') as Hr.
  replace (playlist (removed index track s)) with (js_splice1 index (playlist s))
    by reflexivity.
  destruct (Z.gtb_spec (js_length (js_splice1 index (playlist s))) 0); [|lia].
  rewrite (loadTrack_found _ track') by exact H'.
  replace (playlist (removed index track s)) with (js_splice1 index (playlist s))
    by reflexivity.
  destruct (renderable (js_splice1 index (playlist s))) eqn:E; [|reflexivity].
  unfold render_completion.
  replace (playlist (loaded _ track' (removed index track s)))
    with (js_splice1 index (playlist s)) by reflexivity.
  rewrite E. reflexivity.
Qed.

Lemma removeTrack_only index track s :
  js_nth (playlist s) index = Some track ->
  index = currentTrackIndex s ->
  js_length (playlist s) = 1 ->
  removeTrack index s = (Normal tt, idle (removed index track s)).
Proof.
  intros H Hc Hl. rewrite (removeTrack_found _ _ _ H). cbn zeta.
  rewrite <- Hc, Z.eqb_refl.
  replace (playlist (removed index track s)) with (js_splice1 index (playlist s))
    by reflexivity.
  pose proof (js_nth_Some _ _ _ H) as Hv.
  pose proof (js_length_splice1 _ _ Hv) as Hs.
  destruct (Z.gtb_spec (js_length (js_splice1 index (playlist s))) 0); [lia|].
  assert (E : js_splice1 index (playlist s) = []) by (apply js_length_nil; lia).
  rewrite E. reflexivity.
Qed.

Lemma removeTrack_before index track s :
  js_nth (playlist s) index = Some track ->
  index < currentTrackIndex s ->
  removeTrack index s =
  (render_completion (js_splice1 index (playlist s)),
   rendered (with_currentTrackIndex (currentTrackIndex s - 1) (removed index track s))).
Proof.
  intros H Hc. rewrite (removeTrack_found _ _ _ H). cbn zeta.
  destruct (Z.eqb_spec index (currentTrackIndex s)); [lia|].
  destruct (Z.ltb_spec index (currentTrackIndex s)); [reflexivity|lia].
Qed.

Lemma removeTrack_after index track s :
  js_nth (playlist s) index = Some track ->
  currentTrackIndex s < index ->
  removeTrack index s =
  (render_completion (js_splice1 index (playlist s)),
   rendered (removed index track s)).
Proof.
  intros H Hc. rewrite (removeTrack_found _ _ _ H). cbn zeta.
  destruct (Z.eqb_spec index (currentTrackIndex s)); [lia|].
  destruct (Z.ltb_spec index (currentTrackIndex s)); [lia|reflexivity].
Qed.

(** What sits at an index after the splice. *)
Lemma js_nth_splice1_lt {A} (a : list A) (i j : Z) :
  0 <= i < js_length a -> j < i -> js_nth (js_splice1 i a) j = js_nth a j.
Proof.
  intros Hi Hj. rewrite js_splice1_valid by assumption. unfold js_nth.
  destruct (j <? 0) eqn:E; [reflexivity|]. apply Z.ltb_ge in E.
  apply list_lookup_delete_lt. lia.
Qed.

Lemma js_nth_splice1_ge {A} (a : list A) (i j : Z) :
  0 <= i < js_length a -> i <= j -> js_nth (js_splice1 i a) j = js_nth a (j + 1).
Proof.
  intros Hi Hj. rewrite js_splice1_valid by assumption. unfold js_nth.
  destruct (Z.ltb_spec j 0); [lia|]. destruct (Z.ltb_spec (j + 1) 0); [lia|].
  rewrite list_lookup_delete_ge by lia. f_equal. lia.
Qed.
#[local] Arguments renderable : simpl never.

(** ** Removing the selected track *)


(** C3 on a page with a track whose row has no remove button: [a.mp3] is
    added and plays, a file whose name opens a comment is added behind it,
    and the playing track is removed. [loadTrack] selects the remaining
    track and assigns its URL to the audio element, then [renderPlaylist]
    throws at that track's row and [playTrack] is never reached: the
    element is left paused on the new source, no [play()] follows the
    assignment, and [isPlaying] keeps the value it had. *)
Theorem removeTrack_of_current_without_button :
  let s := run [FilesChosen [song "a.mp3"]; FilesChosen [unclosed_comment]] initial in
  let s' := exec (removeTrack 0) s in
  (name <$> playlist s, currentTrackIndex s, isPlaying s) = (["a"; "<!--"], 0, true) /\
  completion (removeTrack 0) s = Throw null_error /\
  (name <$> playlist s', currentTrackIndex s') = (["<!--"], 0) /\
  audioPlayer s' = {| src := Some 1%nat; paused := true; position := 0 |} /\
  isPlaying s' = true /\
  effects s' = (effects s ++ [RevokeObjectURL 0%nat; SetSrc (Some 1%nat)])%list.
Proof. repeat split. Qed.

(** ** Removing a track in front of the selection *)

(** C5: removing a track at an index strictly below the selection lowers
    [currentTrackIndex] by exactly one and reloads nothing: the audio
    element (source, paused flag, position) and [isPlaying] are untouched,
    the only host call is the revocation, and the selection still points at
    the same track. *)
Theorem removeTrack_before_current (s : State) (index : Z) :
  0 <= index < currentTrackIndex s ->
  index < js_length (playlist s) ->
  let s' := exec (removeTrack index) s in
  currentTrackIndex s' = currentTrackIndex s - 1 /\
  audioPlayer s' = audioPlayer s /\
  isPlaying s' = isPlaying s /\
  js_nth (playlist s') (currentTrackIndex s') = js_nth (playlist s) (currentTrackIndex s) /\
  exists u, effects s' = (effects s ++ [RevokeObjectURL u])%list.
Proof.
  intros Hi Hl.
  assert (Hv : 0 <= index < js_length (playlist s)) by lia.
  destruct (js_nth_valid _ _ Hv) as [track Ht].
  unfold exec.
  rewrite (removeTrack_before _ _ _ Ht) by lia. cbn.
  repeat split.
  - rewrite js_nth_splice1_ge by lia. f_equal. lia.
  - exists (url track). reflexivity.
Qed.

(** ** Indices out of range *)

(** C8, as the script has it: for an index outside [0, length) both
    [loadTrack] and [removeTrack] fail, with the [TypeError] of reading a
    property of the missing track (there is no range check of their own);
    the playlist is unchanged by either failure and [removeTrack] leaves
    the whole page, [currentTrackIndex] included, as it was. *)
Theorem out_of_range_fails (s : State) (index : Z) :
  ~ valid_index s index ->
  (exists e, completion (loadTrack index) s = Throw e) /\
  playlist (exec (loadTrack index) s) = playlist s /\
  (exists e, completion (removeTrack index) s = Throw e) /\
  exec (removeTrack index) s = s.
Proof.
  intros Hv. apply js_nth_None in Hv.
  unfold exec, completion.
  rewrite (loadTrack_missing _ _ Hv), (removeTrack_missing _ _ Hv). cbn.
  repeat split; eauto.
Qed.

(** ** Play and pause *)

(** C10: with a track selected, [togglePlay] flips [isPlaying] and pauses
    or resumes the audio element where it stands; the playlist, the
    selection and the loaded source stay, and a second [togglePlay] brings
    [isPlaying] back. *)
Theorem togglePlay_flips (s : State) :
  0 <= currentTrackIndex s ->
  let s' := exec togglePlay s in
  completion togglePlay s = Normal tt /\
  isPlaying s' = negb (isPlaying s) /\
  paused (audioPlayer s') = isPlaying s /\
  playlist s' = playlist s /\
  currentTrackIndex s' = currentTrackIndex s /\
  src (audioPlayer s') = src (audioPlayer s) /\
  position (audioPlayer s') = position (audioPlayer s) /\
  isPlaying (exec togglePlay s') = isPlaying s.
Proof.
  intros Hc. unfold exec, completion, togglePlay. js_unfold.
  destruct (Z.eqb_spec (currentTrackIndex s) (-1)) as [E|E]; [lia|].
  destruct (isPlaying s) eqn:Hp; cbn; rewrite ?Hp; cbn.
  - destruct (Z.eqb_spec (currentTrackIndex s) (-1)); [lia|]. repeat split.
  - destruct (Z.eqb_spec (currentTrackIndex s) (-1)); [lia|]. repeat split.
Qed.

(** ** Previous and next *)

Lemma playNext_eq s : playNext s = loadTrack (next_index s) s.
Proof.
  unfold playNext, next_index. js_unfold.
  destruct (currentTrackIndex s <? js_length (playlist s) - 1); reflexivity.
Qed.


Lemma next_index_ok s :
  -1 <= currentTrackIndex s ->
  (playlist s <> [] -> valid_index s (next_index s)) /\
  (playlist s = [] -> next_index s = 0).
Proof.
  intros Hb. unfold valid_index, next_index. split.
  - intros Hne. assert (js_length (playlist s) <> 0) by (rewrite js_length_nil; exact Hne).
    pose proof (Nat2Z.is_nonneg (length (playlist s))). unfold js_length in *.
    destruct (Z.ltb_spec (currentTrackIndex s) (Z.of_nat (length (playlist s)) - 1)); lia.
  - intros ->. unfold js_length. cbn.
    destruct (Z.ltb_spec (currentTrackIndex s) (Z.of_nat 0 - 1)); [lia | reflexivity].
Qed.


(** The walk through the player given with the properties: three files
    are added and the first plays; it is removed and the next one takes its
    place, playing; [playNext] moves to index 1 and, from there, wraps. *)
Example add_remove_next_next :
  let s1 := run [FilesChosen [song "a.mp3"; song "b.mp3"; song "c.mp3"]] initial in
  let s2 := run [RemoveClick 0] s1 in
  let s3 := run [NextClick] s2 in
  let s4 := run [NextClick] s3 in
  (currentTrackIndex s1, isPlaying s1) = (0, true) /\
  (currentTrackIndex s2, isPlaying s2, currentTrackEl s2) = (0, true, Some "b") /\
  (currentTrackIndex s3, currentTrackEl s3) = (1, Some "c") /\
  (currentTrackIndex s4, currentTrackEl s4) = (0, Some "b").
Proof. repeat split. Qed.

(** C2 at the empty playlist: [playNext] is not a no-op there. It calls
    [loadTrack 0], which stores [0] in [currentTrackIndex] before the read
    of [playlist[0].url] throws; the selection is left dangling, and files
    added afterwards are not started, since [handleFiles] only starts
    playback from [-1]. [playPrev] on the same page throws as well but
    leaves every variable as it was. *)
Theorem playNext_on_empty_playlist :
  playlist initial = [] /\
  completion playNext initial =
    Throw (TypeError "Cannot read properties of undefined") /\
  currentTrackIndex (exec playNext initial) = 0 /\
  playlist (exec playNext initial) = [] /\
  exec playPrev initial = initial /\
  isPlaying (run [NextClick; FilesChosen [song "a.mp3"]] initial) = false.
Proof. repeat split. Qed.
(** ** Adding files *)

Lemma length_tracks_of accept n files :
  Z.of_nat (length (tracks_of accept n files)) = count_valid accept files.
Proof.
  unfold count_valid. revert n. induction files as [|f rest IH]; intros n.
  - reflexivity.
  - cbn [tracks_of]. rewrite filter_cons. destruct (accept f) eqn:E.
    + rewrite decide_True by reflexivity. cbn [length]. rewrite !Nat2Z.inj_succ, IH.
      reflexivity.
    + rewrite decide_False by discriminate. apply IH.
Qed.

Lemma count_valid_cons accept f rest :
  count_valid accept (f :: rest) =
  (if accept f then 1 else 0) + count_valid accept rest.
Proof.
  unfold count_valid. rewrite filter_cons. destruct (accept f).
  - rewrite decide_True by reflexivity. cbn [length]. lia.
  - rewrite decide_False by discriminate. lia.
Qed.

Lemma count_invalid_cons accept f rest :
  count_invalid accept (f :: rest) =
  (if accept f then 0 else 1) + count_invalid accept rest.
Proof.
  unfold count_invalid. rewrite filter_cons. destruct (accept f).
  - rewrite decide_False by discriminate. lia.
  - rewrite decide_True by reflexivity. cbn [length]. lia.
Qed.

Lemma after_loop_cons_accept accept warn f rest s :
  accept f = true ->
  after_loop accept warn rest
    (with_playlist (playlist s ++ [track_of f (minted s)])
       (emit (CreateObjectURL (minted s)) (with_minted (S (minted s)) s))) =
  after_loop accept warn (f :: rest) s.
Proof.
  intros E. unfold after_loop. cbn. rewrite E. cbn.
  rewrite <- !app_assoc. cbn. f_equal. lia.
Qed.

Lemma after_loop_cons_reject accept warn f rest s e :
  accept f = false -> warn f = [e] ->
  after_loop accept warn rest (emit e s) = after_loop accept warn (f :: rest) s.
Proof.
  intros E W. unfold after_loop. cbn. rewrite E, W. cbn.
  rewrite <- !app_assoc. reflexivity.
Qed.

Lemma handleFiles_loop_eq files : forall validFiles invalidFiles s,
  handleFiles_loop files validFiles invalidFiles s =
  (Normal (validFiles + count_valid accepts files,
           invalidFiles + count_invalid accepts files),
   after_loop accepts warning_for files s).
Proof.
  induction files as [|f rest IH]; intros v i s.
  - destruct s. unfold after_loop, count_valid, count_invalid. cbn. unfold ret.
    rewrite !Z.add_0_r, Nat.add_0_r, !app_nil_r. reflexivity.
  - cbn [handleFiles_loop]. rewrite count_valid_cons, count_invalid_cons.
    destruct (file_size f >? MAX_FILE_SIZE) eqn:Es.
    + assert (Ea : accepts f = false) by (unfold accepts; rewrite Es; reflexivity).
      rewrite Ea. unfold console_warn. js_unfold. rewrite IH.
      rewrite (after_loop_cons_reject _ _ f rest s (ConsoleWarn (warn_too_large f)) Ea)
        by (unfold warning_for; rewrite Es; reflexivity).
      do 3 f_equal; lia.
    + cbv zeta. destruct (checkIfMp3 f) eqn:Em.
      * assert (Ea : accepts f = true) by (unfold accepts; rewrite Es, Em; reflexivity).
        rewrite Ea. unfold createObjectURL. js_unfold. rewrite IH.
        rewrite (after_loop_cons_accept _ _ f rest s Ea).
        do 3 f_equal; lia.
      * assert (Ea : accepts f = false) by (unfold accepts; rewrite Es, Em; reflexivity).
        rewrite Ea. unfold console_warn. js_unfold. rewrite IH.
        rewrite (after_loop_cons_reject _ _ f rest s (ConsoleWarn (warn_not_mp3 f)) Ea)
          by (unfold warning_for; rewrite Es; reflexivity).
        do 3 f_equal; lia.
Qed.

#[local] Arguments loadTrack : simpl never.

Lemma handleFiles_eq files s :
  handleFiles files s =
  let s2 := after_notice files s in
  if count_valid accepts files >? 0 then
    if renderable (playlist s2) then
      if currentTrackIndex s =? -1 then loadTrack 0 (rendered s2)
      else (Normal tt, rendered s2)
    else (Throw null_error, rendered s2)
  else (Normal tt, s2).
Proof.
  unfold handleFiles, bind at 1. rewrite handleFiles_loop_eq. cbn [fst snd].
  rewrite !Z.add_0_l. unfold after_notice. cbv zeta.
  destruct (count_invalid accepts files >? 0);
    destruct (count_valid accepts files >? 0); js_unfold;
    unfold showNotification, modify; cbn; rewrite ?renderPlaylist_eq;
    unfold render_completion; cbn;
    try match goal with |- context [renderable ?l] => destruct (renderable l) end;
    cbn; try reflexivity;
    destruct (currentTrackIndex s =? -1); reflexivity.
Qed.

Lemma legacy_handleFiles_loop_eq files : forall s,
  Legacy.handleFiles_loop files s =
  (Normal tt, after_loop legacy_accepts (fun _ => []) files s).
Proof.
  induction files as [|f rest IH]; intros s.
  - destruct s. unfold after_loop. cbn. unfold ret.
    rewrite Nat.add_0_r, !app_nil_r. reflexivity.
  - cbn [Legacy.handleFiles_loop].
    destruct ((file_type f =? "audio/mp3")%string || (file_type f =? "audio/mpeg")%string) eqn:E.
    + unfold createObjectURL. js_unfold. rewrite IH.
      rewrite (after_loop_cons_accept _ _ f rest s); [reflexivity | exact E].
    + rewrite IH. unfold after_loop. cbn. unfold legacy_accepts. rewrite E. reflexivity.
Qed.

Lemma legacy_handleFiles_eq files s :
  Legacy.handleFiles files s =
  let s1 := after_loop legacy_accepts (fun _ => []) files s in
  if js_length (playlist s1) >? 0 then
    if renderable (playlist s1) then
      if currentTrackIndex s =? -1 then loadTrack 0 (rendered s1)
      else (Normal tt, rendered s1)
    else (Throw null_error, rendered s1)
  else (Normal tt, s1).
Proof.
  unfold Legacy.handleFiles, bind at 1. rewrite legacy_handleFiles_loop_eq.
  js_unfold. cbv zeta.
  destruct (js_length (playlist (after_loop legacy_accepts (fun _ => []) files s)) >? 0).
  - rewrite renderPlaylist_eq. unfold render_completion.
    match goal with |- context [renderable ?l] => destruct (renderable l) end; cbn;
      [|reflexivity].
    destruct (currentTrackIndex s =? -1); [|reflexivity].
    rewrite legacy_loadTrack_eq. reflexivity.
  - reflexivity.
Qed.

Lemma after_notice_fields files s :
  let s2 := after_notice files s in
  playlist s2 = (playlist s ++ tracks_of accepts (minted s) files)%list /\
  currentTrackIndex s2 = currentTrackIndex s /\
  isPlaying s2 = isPlaying s /\
  audioPlayer s2 = audioPlayer s /\
  minted s2 = (minted s + length (tracks_of accepts (minted s) files))%nat.
Proof.
  unfold after_notice. cbv zeta.
  destruct (count_invalid accepts files >? 0); repeat split.
Qed.

Lemma tracks_of_nil accept n files :
  count_valid accept files = 0 -> tracks_of accept n files = [].
Proof.
  rewrite <- (length_tracks_of accept n). intros H.
  apply length_zero_iff_nil. lia.
Qed.

Lemma tracks_of_cons accept n files :
  count_valid accept files > 0 ->
  exists t rest, tracks_of accept n files = t :: rest.
Proof.
  rewrite <- (length_tracks_of accept n).
  destruct (tracks_of accept n files) as [|t rest]; cbn; [lia | eauto].
Qed.

Lemma js_nth_0_app {A} (a b : list A) x rest :
  b = x :: rest -> exists y, js_nth (a ++ b)%list 0 = Some y /\ head (a ++ b)%list = Some y.
Proof.
  intros ->. destruct a as [|y a]; cbn; eauto.
Qed.

(** The effect of [handleFiles] on the selection, on a page whose selection
    is consistent with its playlist and when every row of the longer
    playlist gets its remove button. *)
Lemma handleFiles_selection files s :
  StoreInv s ->
  renderable (playlist s ++ tracks_of accepts (minted s) files) = true ->
  StoreInv (exec (handleFiles files) s) /\
  selection_after_add s (exec (handleFiles files) s).
Proof.
  intros Inv Hr. unfold exec. rewrite handleFiles_eq. cbv zeta.
  destruct (after_notice_fields files s) as (Hp & Hc & Hi & Ha & _).
  rewrite Hp, Hr.
  unfold StoreInv, selection_after_add in *.
  destruct (Z.gtb_spec (count_valid accepts files) 0) as [Hv|Hv].
  - destruct (tracks_of_cons accepts (minted s) files) as (t & rest & Ht); [lia|].
    destruct (js_nth_0_app (playlist s) _ t rest Ht) as (y & Hy & Hh).
    destruct (Z.eqb_spec (currentTrackIndex s) (-1)) as [E|E].
    + rewrite (loadTrack_found 0 y) by (cbn; rewrite Hp; exact Hy).
      replace (playlist (rendered (after_notice files s)))
        with (playlist (after_notice files s)) by reflexivity.
      rewrite Hp, Hr. cbn. rewrite Hp. split.
      * right. apply js_nth_Some in Hy. exact Hy.
      * split; [intros Hne; destruct Inv as [[_ ?]|?]; [contradiction|exfalso; lia]|].
        intros He. rewrite He in *. cbn in Hh |- *. rewrite Ht in *.
        cbn in Hh. injection Hh as <-. repeat split.
    + cbn. rewrite Hp, Hc, Hi, Ha. split.
      * right. destruct Inv as [[? _]|Hr']; [contradiction|].
        unfold js_length in *. rewrite length_app. lia.
      * split; [intros _; repeat split|].
        intros He. destruct Inv as [[? _]|Hr']; [contradiction|].
        rewrite He in Hr'. unfold js_length in Hr'. cbn in Hr'. lia.
  - assert (H0 : count_valid accepts files = 0) by (unfold count_valid in *; lia).
    rewrite (tracks_of_nil _ (minted s) _ H0), app_nil_r in Hp.
    cbn. rewrite Hp, Hc, Hi, Ha. split; [exact Inv|].
    split; [intros _; repeat split|]. intros ->. reflexivity.
Qed.

Lemma legacy_handleFiles_selection files s :
  StoreInv s ->
  renderable (playlist s ++ tracks_of legacy_accepts (minted s) files) = true ->
  StoreInv (exec (Legacy.handleFiles files) s) /\
  selection_after_add s (exec (Legacy.handleFiles files) s).
Proof.
  intros Inv Hr. unfold exec. rewrite legacy_handleFiles_eq. cbv zeta.
  set (s1 := after_loop legacy_accepts (fun _ => []) files s).
  assert (Hp : playlist s1 = (playlist s ++ tracks_of legacy_accepts (minted s) files)%list)
    by reflexivity.
  assert (Hc : currentTrackIndex s1 = currentTrackIndex s) by reflexivity.
  assert (Hi : isPlaying s1 = isPlaying s) by reflexivity.
  assert (Ha : audioPlayer s1 = audioPlayer s) by reflexivity.
  rewrite <- Hp in Hr.
  clearbody s1. rewrite Hr.
  unfold StoreInv, selection_after_add in *.
  destruct (Z.gtb_spec (js_length (playlist s1)) 0) as [Hv|Hv].
  - destruct (js_nth_valid (playlist s1) 0) as [y Hy]; [lia|].
    destruct (Z.eqb_spec (currentTrackIndex s) (-1)) as [E|E].
    + rewrite (loadTrack_found 0 y) by exact Hy.
      replace (playlist (rendered s1)) with (playlist s1) by reflexivity.
      rewrite Hr. cbn. split.
      * right. lia.
      * split; [intros Hne; destruct Inv as [[_ ?]|?]; [contradiction|exfalso; lia]|].
        intros He. destruct (playlist s1) as [|first l] eqn:E1; [unfold js_length in Hv; cbn in Hv; lia|].
        cbn in Hy. injection Hy as <-. repeat split.
    + cbn. rewrite Hc, Hi, Ha. split.
      * right. destruct Inv as [[? _]|Hr']; [contradiction|].
        rewrite Hp. unfold js_length in *. rewrite length_app. lia.
      * split; [intros _; repeat split|].
        intros He. destruct Inv as [[? _]|Hr']; [contradiction|].
        rewrite He in Hr'. unfold js_length in Hr'. cbn in Hr'. lia.
  - assert (H0 : playlist s1 = []).
    { apply length_zero_iff_nil. unfold js_length in Hv. lia. }
    cbn. rewrite ?Hc, ?Hi, ?Ha, ?H0. destruct (app_eq_nil _ _ (eq_trans (eq_sym Hp) H0)) as [Hs _].
    split.
    + destruct Inv as [[? _]|Hr']; [left; split; [assumption|reflexivity]|].
      rewrite Hs in Hr'. unfold js_length in Hr'. cbn in Hr'. lia.
    + split; [intros ?; contradiction | intros _; reflexivity].
Qed.

(** Where adding files does what is expected of it: on a page whose
    selection is [-1] exactly when the playlist is empty, and when every
    track of the longer playlist gets its remove button, [handleFiles]
    leaves [currentTrackIndex], the audio element and [isPlaying] alone if
    the playlist had tracks, and selects, loads and plays the first track
    if it had none. Both revisions agree. *)
Lemma adding_keeps_selection (s : State) (files : list File) :
  StoreInv s ->
  (renderable (playlist s ++ tracks_of accepts (minted s) files) = true ->
   selection_after_add s (exec (handleFiles files) s)) /\
  (renderable (playlist s ++ tracks_of legacy_accepts (minted s) files) = true ->
   selection_after_add s (exec (Legacy.handleFiles files) s)).
Proof.
  intros Inv. split; intros Hr.
  - apply handleFiles_selection; assumption.
  - apply legacy_handleFiles_selection; assumption.
Qed.

(** C6 on two pages with an empty playlist. After Next was clicked on the
    empty playlist, [currentTrackIndex] is [0]; [handleFiles] starts the
    first track only from [-1], so the file added next is listed and
    nothing is loaded or played. On the initial page, a file whose name
    opens a comment is pushed, then [renderPlaylist] throws at its row
    before [handleFiles] reaches [loadTrack 0]: [currentTrackIndex] stays
    [-1] on a playlist of one track and nothing is loaded or played. A
    later addition to that playlist, which is no longer empty, leaves the
    selection where it is. *)
Theorem adding_to_empty_playlist_not_started :
  let s := run [NextClick] initial in
  let s' := exec (handleFiles [song "a.mp3"]) s in
  let t := exec (handleFiles [unclosed_comment]) initial in
  let t' := exec (handleFiles [song "a.mp3"]) t in
  (playlist s, currentTrackIndex s) = ([], 0) /\
  completion (handleFiles [song "a.mp3"]) s = Normal tt /\
  (name <$> playlist s', currentTrackIndex s', isPlaying s') = (["a"], 0, false) /\
  audioPlayer s' = {| src := None; paused := true; position := 0 |} /\
  completion (handleFiles [unclosed_comment]) initial = Throw null_error /\
  (name <$> playlist t, currentTrackIndex t, isPlaying t) = (["<!--"], -1, false) /\
  audioPlayer t = {| src := None; paused := true; position := 0 |} /\
  playlistItems t = [] /\
  (name <$> playlist t', currentTrackIndex t', isPlaying t') = (["<!--"; "a"], -1, false).
Proof. repeat split. Qed.

(** ** The selection never dangles *)

Lemma loadTrack_SelectionOk index s :
  valid_index s index -> SelectionOk (snd (loadTrack index s)).
Proof.
  intros Hv. destruct (js_nth_valid _ _ Hv) as [track Ht].
  rewrite (loadTrack_found _ _ _ Ht).
  destruct (renderable (playlist s)); right; exact Hv.
Qed.

Lemma handleFiles_SelectionOk files s :
  SelectionOk s -> SelectionOk (exec (handleFiles files) s).
Proof.
  intros Inv. unfold exec. rewrite handleFiles_eq. cbv zeta.
  destruct (after_notice_fields files s) as (Hp & Hc & _).
  assert (Hk : SelectionOk (rendered (after_notice files s))).
  { unfold SelectionOk, valid_index in *. cbn. rewrite Hp, Hc.
    unfold js_length in *. rewrite length_app. lia. }
  destruct (Z.gtb_spec (count_valid accepts files) 0) as [Hv|Hv].
  - destruct (renderable (playlist (after_notice files s))); [|exact Hk].
    destruct (Z.eqb_spec (currentTrackIndex s) (-1)) as [E|E]; [|exact Hk].
    apply loadTrack_SelectionOk. unfold valid_index. cbn. rewrite Hp.
    unfold js_length. rewrite length_app, <- (length_tracks_of accepts (minted s)) in *.
    lia.
  - assert (H0 : count_valid accepts files = 0) by (unfold count_valid in *; lia).
    rewrite (tracks_of_nil _ (minted s) _ H0), app_nil_r in Hp.
    unfold SelectionOk, valid_index in *. cbn. rewrite Hp, Hc. exact Inv.
Qed.

Lemma removeTrack_SelectionOk index s :
  SelectionOk s -> SelectionOk (exec (removeTrack index) s).
Proof.
  intros Inv. unfold exec.
  destruct (js_nth (playlist s) index) as [track|] eqn:Ht.
  2:{ rewrite (removeTrack_missing _ _ Ht). exact Inv. }
  pose proof (js_nth_Some _ _ _ Ht) as Hv.
  pose proof (js_length_splice1 _ _ Hv) as Hl.
  unfold SelectionOk, valid_index in *.
  destruct (Z.lt_trichotomy index (currentTrackIndex s)) as [Hlt|[Heq|Hgt]].
  - rewrite (removeTrack_before _ _ _ Ht Hlt). right. cbn. lia.
  - destruct (Z.eq_dec (js_length (playlist s)) 1) as [H1|H1].
    + rewrite (removeTrack_only _ _ _ Ht Heq H1). left. reflexivity.
    + assert (Hm : 0 <= Z.min index (js_length (js_splice1 index (playlist s)) - 1)
                   < js_length (js_splice1 index (playlist s))) by lia.
      destruct (js_nth_valid _ _ Hm) as [track' Ht'].
      rewrite (removeTrack_current _ _ _ _ Ht Heq Ht').
      destruct (renderable (js_splice1 index (playlist s))); right; cbn; exact Hm.
  - rewrite (removeTrack_after _ _ _ Ht Hgt). cbn. lia.
Qed.

Lemma run_ops_SelectionOk ops : forall s, SelectionOk s -> SelectionOk (run_ops ops s).
Proof.
  induction ops as [|op ops IH]; intros s Inv; [exact Inv|].
  cbn. apply IH. destruct op as [files|index]; cbn.
  - apply handleFiles_SelectionOk, Inv.
  - apply removeTrack_SelectionOk, Inv.
Qed.

(** C1: after any sequence of additions and removals from the initial
    page, whatever the indices passed to [removeTrack] and whether or not
    [renderPlaylist] threw on the way, [currentTrackIndex] is [-1] or a
    valid index into the playlist. *)
Theorem currentTrackIndex_never_dangles (ops : list StoreOp) :
  let s := run_ops ops initial in
  currentTrackIndex s = -1 \/ 0 <= currentTrackIndex s < js_length (playlist s).
Proof.
  cbv zeta. apply (run_ops_SelectionOk ops initial). left. reflexivity.
Qed.
(** ** Object URLs *)

Section UrlBookkeeping.

Variable accept : File -> bool.
Variable warn : File -> list Effect.
Hypothesis warn_creates_nothing : forall f, created (warn f) = [].
Hypothesis warn_revokes_nothing : forall f, revoked (warn f) = [].

Lemma fmap_url_tracks_of files : forall n,
  url <$> tracks_of accept n files = seq n (length (tracks_of accept n files)).
Proof.
  induction files as [|f rest IH]; intros n; [reflexivity|].
  cbn [tracks_of]. destruct (accept f); [|apply IH].
  cbn. rewrite IH. reflexivity.
Qed.

Lemma created_loop_effects files : forall n,
  created (loop_effects accept warn n files) =
  seq n (length (tracks_of accept n files)).
Proof.
  induction files as [|f rest IH]; intros n; [reflexivity|].
  cbn [tracks_of loop_effects]. destruct (accept f).
  - unfold created in *. cbn. rewrite IH. reflexivity.
  - unfold created in *. rewrite omap_app. fold (created (warn f)).
    rewrite warn_creates_nothing. apply IH.
Qed.

Lemma revoked_loop_effects files : forall n,
  revoked (loop_effects accept warn n files) = [].
Proof.
  induction files as [|f rest IH]; intros n; [reflexivity|].
  cbn [loop_effects]. destruct (accept f).
  - unfold revoked in *. cbn. apply IH.
  - unfold revoked in *. rewrite omap_app. fold (revoked (warn f)).
    rewrite warn_revokes_nothing. apply IH.
Qed.

End UrlBookkeeping.

Lemma UrlInv_quiet s s' :
  playlist s' = playlist s ->
  minted s' = minted s ->
  revoked (effects s') = revoked (effects s) ->
  created (effects s') = created (effects s) ->
  UrlInv s -> UrlInv s'.
Proof.
  unfold UrlInv. intros -> -> -> ->. exact id.
Qed.

Lemma UrlInv_extend s s' new :
  playlist s' = (playlist s ++ new)%list ->
  url <$> new = seq (minted s) (length new) ->
  minted s' = (minted s + length new)%nat ->
  revoked (effects s') = revoked (effects s) ->
  created (effects s') = (created (effects s) ++ seq (minted s) (length new))%list ->
  UrlInv s -> UrlInv s'.
Proof.
  unfold UrlInv. intros -> Hn -> -> -> (Hd & Hr & Hc & Hall & Hdisj).
  rewrite fmap_app, Hn.
  assert (Hold : forall u, u ∈ url <$> playlist s -> (u < minted s)%nat).
  { intros u Hu. apply Hall. left. exact Hu. }
  repeat split.
  - apply NoDup_app. split; [exact Hd|]. split; [|apply NoDup_seq].
    intros u Hu Hs. apply elem_of_seq in Hs. apply Hold in Hu. lia.
  - exact Hr.
  - rewrite Hc. symmetry. apply seq_app.
  - intros Hu. rewrite elem_of_app, elem_of_seq.
    destruct (Nat.lt_ge_cases u (minted s)) as [Hlt|Hge].
    + apply Hall in Hlt. tauto.
    + left. right. lia.
  - rewrite elem_of_app, elem_of_seq. intros [[Hu|Hu]|Hu].
    + apply Hold in Hu. lia.
    + lia.
    + assert (u < minted s)%nat by (apply Hall; right; exact Hu). lia.
  - intros u. rewrite elem_of_app, elem_of_seq. intros [Hu|Hu].
    + apply Hdisj, Hu.
    + intros Hrv. assert (u < minted s)%nat by (apply Hall; right; exact Hrv). lia.
Qed.

Lemma UrlInv_remove s s' i t :
  playlist s !! i = Some t ->
  playlist s' = delete i (playlist s) ->
  minted s' = minted s ->
  revoked (effects s') = (revoked (effects s) ++ [url t])%list ->
  created (effects s') = created (effects s) ->
  UrlInv s -> UrlInv s'.
Proof.
  unfold UrlInv. intros Ht -> -> -> -> (Hd & Hr & Hc & Hall & Hdisj).
  rewrite delete_take_drop.
  rewrite <- (take_drop_middle _ _ _ Ht) in Hd, Hall, Hdisj.
  set (l1 := take i (playlist s)) in *. set (l2 := drop (S i) (playlist s)) in *.
  clearbody l1 l2. rewrite fmap_app in *. rewrite fmap_cons in *.
  apply NoDup_app in Hd. destruct Hd as (Hd1 & Hd12 & Hd2).
  apply NoDup_cons in Hd2. destruct Hd2 as (Ht2 & Hd2).
  assert (Ht1 : url t ∉ url <$> l1).
  { intros Hin. apply (Hd12 _ Hin). apply list_elem_of_here. }
  repeat split.
  - apply NoDup_app. split; [exact Hd1|]. split; [|exact Hd2].
    intros u Hu Hu2. apply (Hd12 _ Hu). apply list_elem_of_further, Hu2.
  - apply NoDup_app. split; [exact Hr|]. split; [|apply NoDup_singleton].
    intros u Hu Hs. apply list_elem_of_singleton in Hs. subst u.
    apply (Hdisj (url t)); [|exact Hu].
    apply elem_of_app. right. apply list_elem_of_here.
  - exact Hc.
  - intros Hu. apply Hall in Hu. rewrite !elem_of_app, elem_of_cons in Hu.
    rewrite !elem_of_app, list_elem_of_singleton. tauto.
  - rewrite !elem_of_app, list_elem_of_singleton. intros Hu. apply Hall.
    rewrite !elem_of_app, elem_of_cons. tauto.
  - intros u Hu. rewrite not_elem_of_app. split.
    + apply Hdisj. rewrite !elem_of_app, elem_of_cons.
      rewrite elem_of_app in Hu. tauto.
    + rewrite list_elem_of_singleton. intros ->.
      rewrite elem_of_app in Hu. tauto.
Qed.

Lemma PageInv_quiet s s' :
  playlist s' = playlist s ->
  minted s' = minted s ->
  revoked (effects s') = revoked (effects s) ->
  created (effects s') = created (effects s) ->
  currentTrackIndex s' = currentTrackIndex s ->
  src (audioPlayer s') = src (audioPlayer s) ->
  length (playlistItems s') = length (playlistItems s) ->
  PageInv s -> PageInv s'.
Proof.
  intros Hp Hm Hr Hc Hi Hs Hl (HU & HS & HR). split; [|split].
  - exact (UrlInv_quiet s s' Hp Hm Hr Hc HU).
  - unfold SelInv in *. rewrite Hp, Hi, Hs. exact HS.
  - unfold RowsInv in *. rewrite Hl, Hp. exact HR.
Qed.

Lemma length_rows_of l cur : length (rows_of l cur) = length l.
Proof. apply length_imap. Qed.

Lemma rows_of_visible_le l cur :
  (length (rows_of (visible l) cur) <= length l)%nat.
Proof. rewrite length_rows_of. apply length_visible. Qed.

Lemma loaded_PageInv index track s :
  UrlInv s ->
  js_nth (playlist s) index = Some track ->
  PageInv (loaded index track s).
Proof.
  intros HU Ht. split; [|split].
  - apply (UrlInv_quiet s); try reflexivity; try log_calc. exact HU.
  - split; cbn.
    + right. exists track. split; [exact Ht | reflexivity].
    + apply js_nth_Some in Ht. lia.
  - apply rows_of_visible_le.
Qed.

Lemma stalled_PageInv index track s :
  UrlInv s ->
  js_nth (playlist s) index = Some track ->
  PageInv (stalled index track s).
Proof.
  intros HU Ht. split; [|split].
  - apply (UrlInv_quiet s); try reflexivity; try log_calc. exact HU.
  - split; cbn.
    + right. exists track. split; [exact Ht | reflexivity].
    + apply js_nth_Some in Ht. lia.
  - apply rows_of_visible_le.
Qed.

Lemma loadTrack_PageInv index s :
  PageInv s ->
  valid_index s index \/ (playlist s = [] /\ -1 <= index <= 0) ->
  PageInv (exec (loadTrack index) s).
Proof.
  intros (HU & HS & HR) Hi. unfold exec.
  destruct (js_nth (playlist s) index) as [track|] eqn:Ht.
  - rewrite (loadTrack_found _ _ _ Ht).
    destruct (renderable (playlist s));
      [apply loaded_PageInv | apply stalled_PageInv]; assumption.
  - rewrite (loadTrack_missing _ _ Ht). cbn.
    destruct Hi as [Hv|[He Hb]]; [apply js_nth_None in Ht; contradiction|].
    split; [|split].
    + apply (UrlInv_quiet s); try reflexivity. exact HU.
    + destruct HS as [Hs _]. split; cbn.
      * left. destruct Hs as [Hs|(t & Hn & _)]; [exact Hs|].
        rewrite He in Hn. unfold js_nth in Hn.
        destruct (currentTrackIndex s <? 0); discriminate.
      * rewrite He. unfold js_length. cbn. lia.
    + exact HR.
Qed.

Lemma rendered_PageInv s : UrlInv s -> SelInv s -> PageInv (rendered s).
Proof.
  intros HU HS. split; [|split].
  - apply (UrlInv_quiet s); try reflexivity. exact HU.
  - exact HS.
  - apply rows_of_visible_le.
Qed.

Lemma togglePlay_PageInv s : PageInv s -> PageInv (exec togglePlay s).
Proof.
  intros Inv. unfold exec, togglePlay. js_unfold.
  destruct (Z.eqb_spec (currentTrackIndex s) (-1)) as [E|E].
  - destruct (Z.gtb_spec (js_length (playlist s)) 0) as [Hl|Hl].
    + apply (loadTrack_PageInv 0 s Inv). left. unfold valid_index. lia.
    + apply (PageInv_quiet s); try reflexivity; try log_calc. exact Inv.
  - destruct (isPlaying s);
      apply (PageInv_quiet s); try reflexivity; try log_calc; exact Inv.
Qed.

Lemma playNext_PageInv s : PageInv s -> PageInv (exec playNext s).
Proof.
  intros Inv. pose proof Inv as (_ & (_ & Hb) & _).
  unfold exec, playNext. js_unfold.
  destruct (Z.ltb_spec (currentTrackIndex s) (js_length (playlist s) - 1)).
  - apply (loadTrack_PageInv _ s Inv). left. unfold valid_index. lia.
  - apply (loadTrack_PageInv _ s Inv).
    destruct (playlist s) as [|t l] eqn:E.
    + right. split; [reflexivity | lia].
    + left. unfold valid_index, js_length. rewrite E. cbn. lia.
Qed.

Lemma playPrev_PageInv s : PageInv s -> PageInv (exec playPrev s).
Proof.
  intros Inv. pose proof Inv as (_ & (_ & Hb) & _).
  unfold exec, playPrev. js_unfold.
  destruct (Z.gtb_spec (currentTrackIndex s) 0).
  - apply (loadTrack_PageInv _ s Inv). left. unfold valid_index. lia.
  - apply (loadTrack_PageInv _ s Inv).
    destruct (playlist s) as [|t l] eqn:E.
    + right. split; [reflexivity|]. unfold js_length. cbn. lia.
    + left. unfold valid_index, js_length. rewrite ?E. cbn. lia.
Qed.

Lemma handleAudioError_PageInv s : PageInv s -> PageInv (exec handleAudioError s).
Proof.
  intros Inv. apply (PageInv_quiet s); try reflexivity; try log_calc. exact Inv.
Qed.

Lemma js_nth_lookup {A} (a : list A) (i : Z) (x : A) :
  js_nth a i = Some x -> a !! Z.to_nat i = Some x.
Proof.
  unfold js_nth. destruct (i <? 0); [discriminate | exact id].
Qed.

Lemma js_nth_app_l {A} (a b : list A) (i : Z) (x : A) :
  js_nth a i = Some x -> js_nth (a ++ b)%list i = Some x.
Proof.
  unfold js_nth. destruct (i <? 0); [discriminate|].
  intros H. apply lookup_app_l_Some, H.
Qed.

Lemma removed_UrlInv index track s :
  js_nth (playlist s) index = Some track ->
  UrlInv s -> UrlInv (removed index track s).
Proof.
  intros Ht HU.
  apply (UrlInv_remove s _ (Z.to_nat index) track); try reflexivity.
  - apply js_nth_lookup, Ht.
  - cbn. apply js_splice1_valid. apply (js_nth_Some _ _ _ Ht).
  - unfold revoked. cbn. rewrite omap_app. reflexivity.
  - log_calc.
  - exact HU.
Qed.

Lemma removeTrack_PageInv index s :
  PageInv s -> PageInv (exec (removeTrack index) s).
Proof.
  intros Inv. unfold exec.
  destruct (js_nth (playlist s) index) as [track|] eqn:Ht.
  2:{ rewrite (removeTrack_missing _ _ Ht). exact Inv. }
  destruct Inv as (HU & (Hsrc & Hb) & HR).
  pose proof (js_nth_Some _ _ _ Ht) as Hv.
  pose proof (js_length_splice1 _ _ Hv) as Hl.
  pose proof (removed_UrlInv _ _ _ Ht HU) as HU1.
  destruct (Z.lt_trichotomy index (currentTrackIndex s)) as [Hlt|[Heq|Hgt]].
  - rewrite (removeTrack_before _ _ _ Ht Hlt).
    apply rendered_PageInv.
    + apply (UrlInv_quiet (removed index track s)); try reflexivity. exact HU1.
    + split; cbn.
      * destruct Hsrc as [Hs|(t & Hn & Hs)]; [left; exact Hs|].
        right. exists t. split; [|exact Hs].
        rewrite js_nth_splice1_ge by lia. rewrite <- Hn. f_equal. lia.
      * lia.
  - destruct (Z.eq_dec (js_length (playlist s)) 1) as [H1|H1].
    + rewrite (removeTrack_only _ _ _ Ht Heq H1). split; [|split].
      * apply (UrlInv_quiet (removed index track s)); try reflexivity; try log_calc.
        exact HU1.
      * split; cbn; [left; reflexivity | lia].
      * apply rows_of_visible_le.
    + assert (Hm : 0 <= Z.min index (js_length (js_splice1 index (playlist s)) - 1)
                   < js_length (js_splice1 index (playlist s))) by lia.
      destruct (js_nth_valid _ _ Hm) as [track' Ht'].
      rewrite (removeTrack_current _ _ _ _ Ht Heq Ht').
      destruct (renderable (js_splice1 index (playlist s)));
        [apply loaded_PageInv | apply stalled_PageInv]; assumption.
  - rewrite (removeTrack_after _ _ _ Ht Hgt).
    apply rendered_PageInv; [exact HU1|].
    split; cbn.
    + destruct Hsrc as [Hs|(t & Hn & Hs)]; [left; exact Hs|].
      right. exists t. split; [|exact Hs].
      rewrite js_nth_splice1_lt by lia. exact Hn.
    + lia.
Qed.

Lemma warning_for_creates_nothing f : created (warning_for f) = [].
Proof. reflexivity. Qed.

Lemma warning_for_revokes_nothing f : revoked (warning_for f) = [].
Proof. reflexivity. Qed.

Lemma after_notice_log files s :
  revoked (effects (after_notice files s)) = revoked (effects s) /\
  created (effects (after_notice files s)) =
    (created (effects s) ++
     seq (minted s) (length (tracks_of accepts (minted s) files)))%list.
Proof.
  pose proof (revoked_loop_effects accepts warning_for warning_for_revokes_nothing
                files (minted s)) as Hr.
  pose proof (created_loop_effects accepts warning_for warning_for_creates_nothing
                files (minted s)) as Hc.
  unfold after_notice. cbv zeta.
  destruct (count_invalid accepts files >? 0); unfold revoked, created in *; cbn;
    rewrite ?omap_app, Hr, Hc; cbn; rewrite ?app_nil_r; split; reflexivity.
Qed.

Lemma after_notice_UrlInv files s : UrlInv s -> UrlInv (after_notice files s).
Proof.
  intros HU.
  destruct (after_notice_fields files s) as (Hp & _ & _ & _ & Hm).
  destruct (after_notice_log files s) as (Hr & Hc).
  apply (UrlInv_extend s _ (tracks_of accepts (minted s) files)); try assumption.
  apply fmap_url_tracks_of.
Qed.

Lemma after_notice_SelInv files s : SelInv s -> SelInv (after_notice files s).
Proof.
  intros (Hsrc & Hb).
  destruct (after_notice_fields files s) as (Hp & Hc & _ & Ha & _).
  unfold SelInv. rewrite Hp, Hc, Ha. split.
  - destruct Hsrc as [Hs|(t & Hn & Hs)]; [left; exact Hs|].
    right. exists t. split; [apply js_nth_app_l, Hn | exact Hs].
  - unfold js_length in *. rewrite length_app. lia.
Qed.

Lemma handleFiles_PageInv files s :
  PageInv s -> PageInv (exec (handleFiles files) s).
Proof.
  intros (HU & HS & HR). unfold exec. rewrite handleFiles_eq. cbv zeta.
  pose proof (after_notice_UrlInv files s HU) as HU2.
  pose proof (after_notice_SelInv files s HS) as HS2.
  destruct (after_notice_fields files s) as (Hp & _).
  destruct (Z.gtb_spec (count_valid accepts files) 0) as [Hv|Hv].
  - pose proof (rendered_PageInv _ HU2 HS2) as Inv2.
    destruct (renderable (playlist (after_notice files s))); [|exact Inv2].
    destruct (currentTrackIndex s =? -1); [|exact Inv2].
    apply (loadTrack_PageInv 0 _ Inv2). left.
    unfold valid_index.
    replace (playlist (rendered (after_notice files s)))
      with (playlist (after_notice files s)) by reflexivity.
    rewrite Hp. unfold js_length. rewrite length_app.
    pose proof (length_tracks_of accepts (minted s) files). lia.
  - cbn [snd]. split; [exact HU2|]. split; [exact HS2|].
    assert (H0 : count_valid accepts files = 0) by (unfold count_valid in *; lia).
    rewrite (tracks_of_nil _ (minted s) _ H0), app_nil_r in Hp.
    unfold RowsInv in *. rewrite Hp.
    replace (playlistItems (after_notice files s)) with (playlistItems s); [exact HR|].
    unfold after_notice. cbv zeta.
    destruct (count_invalid accepts files >? 0); reflexivity.
Qed.

Lemma dispatch_PageInv ev s : PageInv s -> PageInv (exec (dispatch ev) s).
Proof.
  intros Inv. destruct ev as [files|row|row| | | | | ]; cbn [dispatch].
  - apply handleFiles_PageInv, Inv.
  - unfold exec, on_row. destruct (Nat.ltb_spec row (length (playlistItems s))) as [Hr|Hr].
    + apply (loadTrack_PageInv _ s Inv). left.
      destruct Inv as (_ & _ & HR). unfold RowsInv in HR.
      unfold valid_index, js_length. lia.
    + exact Inv.
  - unfold exec, on_row. destruct (row <? length (playlistItems s))%nat.
    + apply removeTrack_PageInv, Inv.
    + exact Inv.
  - apply togglePlay_PageInv, Inv.
  - apply playPrev_PageInv, Inv.
  - apply playNext_PageInv, Inv.
  - apply playNext_PageInv, Inv.
  - apply handleAudioError_PageInv, Inv.
Qed.

Lemma run_PageInv evs : forall s, PageInv s -> PageInv (run evs s).
Proof.
  induction evs as [|ev evs IH]; intros s Inv; [exact Inv|].
  cbn. apply IH, dispatch_PageInv, Inv.
Qed.

Lemma initial_PageInv : PageInv initial.
Proof.
  split; [|split].
  - unfold UrlInv. cbn. repeat split; try apply NoDup_nil_2.
    + lia.
    + intros [H|H]; apply elem_of_nil in H; contradiction.
    + intros u H. apply elem_of_nil in H. contradiction.
  - split; cbn; [left; reflexivity | lia].
  - unfold RowsInv. cbn. lia.
Qed.

Lemma fmap_lookup_url (l : list Track) (i : Z) (track : Track) :
  js_nth l i = Some track -> (url <$> l) !! Z.to_nat i = Some (url track).
Proof.
  intros H. rewrite list_lookup_fmap, (js_nth_lookup _ _ _ H). reflexivity.
Qed.

(** On a page where the bookkeeping holds, the track whose URL is the
    source of the audio element is the selected one. *)
Lemma loaded_source_is_selection index track s :
  PageInv s ->
  js_nth (playlist s) index = Some track ->
  src (audioPlayer s) = Some (url track) ->
  index = currentTrackIndex s.
Proof.
  intros ((Hd & _) & (Hsrc & _) & _) Ht Hs.
  destruct Hsrc as [Hn|(t & Hn & Hs')]; [congruence|].
  assert (Hu : url t = url track) by congruence.
  pose proof (fmap_lookup_url _ _ _ Ht) as H1.
  pose proof (fmap_lookup_url _ _ _ Hn) as H2. rewrite Hu in H2.
  pose proof (NoDup_lookup _ _ _ _ Hd H1 H2) as E.
  apply js_nth_Some in Ht. apply js_nth_Some in Hn. lia.
Qed.

(** Removing the track whose URL is the source of the audio element: the
    revocation is the first call [removeTrack] makes, and the assignment
    that replaces or clears the source comes after it. *)
Lemma removeTrack_revokes_first index track s :
  PageInv s ->
  js_nth (playlist s) index = Some track ->
  src (audioPlayer s) = Some (url track) ->
  let s' := exec (removeTrack index) s in
  exists tail,
    effects s' = (effects s ++ RevokeObjectURL (url track) :: tail)%list /\
    SetSrc (src (audioPlayer s')) ∈ tail /\
    src (audioPlayer s') <> Some (url track).
Proof.
  intros Inv Ht Hs. cbv zeta.
  pose proof (loaded_source_is_selection _ _ _ Inv Ht Hs) as Heq.
  destruct Inv as (HU & _ & _).
  pose proof (js_nth_Some _ _ _ Ht) as Hv.
  pose proof (js_length_splice1 _ _ Hv) as Hl.
  unfold exec.
  destruct (Z.eq_dec (js_length (playlist s)) 1) as [H1|H1].
  - rewrite (removeTrack_only _ _ _ Ht Heq H1). cbn.
    exists [AudioPause; SetSrc None]. split; [|split].
    + rewrite <- !app_assoc. reflexivity.
    + apply list_elem_of_further, list_elem_of_here.
    + discriminate.
  - assert (Hm : 0 <= Z.min index (js_length (js_splice1 index (playlist s)) - 1)
                 < js_length (js_splice1 index (playlist s))) by lia.
    destruct (js_nth_valid _ _ Hm) as [track' Ht'].
    assert (Hne : Some (url track') <> Some (url track)).
    { destruct (removed_UrlInv _ _ _ Ht HU) as (_ & _ & _ & _ & Hdisj).
      intros E. injection E as E. apply (Hdisj (url track')).
      - apply list_elem_of_fmap. exists track'. split; [reflexivity|].
        apply list_elem_of_lookup. eexists. apply js_nth_lookup. exact Ht'.
      - rewrite E. unfold revoked. cbn. rewrite omap_app. cbn.
        apply elem_of_app. right. apply list_elem_of_here. }
    rewrite (removeTrack_current _ _ _ _ Ht Heq Ht').
    destruct (renderable (js_splice1 index (playlist s))); cbn.
    + exists [SetSrc (Some (url track')); AudioPlay]. split; [|split].
      * rewrite <- !app_assoc. reflexivity.
      * apply list_elem_of_here.
      * exact Hne.
    + exists [SetSrc (Some (url track'))]. split; [|split].
      * rewrite <- !app_assoc. reflexivity.
      * apply list_elem_of_here.
      * exact Hne.
Qed.

(** C4, as the script has it: whatever the user and the audio element do,
    no object URL is revoked twice, the revoked URLs are exactly those made
    for tracks that are no longer in the playlist, and once a handler has
    run to its end the audio element's source is not a revoked URL. When
    [removeTrack] removes the track whose URL is the source of the audio
    element, the revocation is the first call it makes, while the URL is
    still the source; the assignment of another source (the next track's
    URL, or none) follows in the same call. *)
Theorem object_urls_revoked_once (evs : list Event) :
  let s := run evs initial in
  NoDup (revoked (effects s)) /\
  NoDup (url <$> playlist s) /\
  (forall u, u ∈ revoked (effects s) <->
             u ∈ created (effects s) /\ u ∉ url <$> playlist s) /\
  (forall u, src (audioPlayer s) = Some u -> u ∉ revoked (effects s)) /\
  (forall index track,
     js_nth (playlist s) index = Some track ->
     src (audioPlayer s) = Some (url track) ->
     let s' := exec (removeTrack index) s in
     exists tail,
       effects s' = (effects s ++ RevokeObjectURL (url track) :: tail)%list /\
       revoked_while_loaded (src (audioPlayer s)) (RevokeObjectURL (url track) :: tail)
         = true /\
       SetSrc (src (audioPlayer s')) ∈ tail /\
       src (audioPlayer s') <> Some (url track)).
Proof.
  cbv zeta.
  pose proof (run_PageInv evs initial initial_PageInv) as Inv.
  pose proof Inv as ((Hd & Hr & Hc & Hall & Hdisj) & (Hsrc & _) & _).
  split; [exact Hr|]. split; [exact Hd|]. split; [|split].
  - intros u. rewrite Hc, elem_of_seq. split.
    + intros Hu. split.
      * assert (u < minted (run evs initial))%nat by (apply Hall; right; exact Hu). lia.
      * intros Hp. exact (Hdisj u Hp Hu).
    + intros [Hu Hp]. assert (Hlt : (u < minted (run evs initial))%nat) by lia.
      apply Hall in Hlt. tauto.
  - intros u Hu. destruct Hsrc as [Hs|(t & Hn & Hs)]; [congruence|].
    apply Hdisj. assert (u = url t) as -> by congruence.
    apply list_elem_of_fmap. exists t. split; [reflexivity|].
    apply list_elem_of_lookup. exists (Z.to_nat (currentTrackIndex (run evs initial))).
    apply js_nth_lookup, Hn.
  - intros index track Ht Hs.
    destruct (removeTrack_revokes_first _ _ _ Inv Ht Hs) as (tail & He & Hin & Hne).
    exists tail. split; [exact He|]. split; [|split; assumption].
    rewrite Hs. cbn. rewrite Nat.eqb_refl. reflexivity.
Qed.

(** ** File validation *)










(** ** Time format *)

Lemma Qfloor_div_sixty (q : Q) : Qfloor (q / (60 # 1)) = Qfloor q / 60.
Proof.
  destruct q as [a b]. unfold Qfloor, Qdiv, Qmult, Qinv. cbn.
  rewrite Z.mul_1_r, Pos2Z.inj_mul. symmetry. apply Z.div_div; lia.
Qed.

Lemma Qtrunc_div_sixty (q : Q) :
  (0 <= q)%Q -> Qtrunc (q / (60 # 1)) = Qfloor q / 60.
Proof.
  intros Hq. rewrite <- Qfloor_div_sixty.
  destruct q as [a b]. unfold Qle in Hq. cbn in Hq.
  unfold Qtrunc, Qfloor, Qdiv, Qmult, Qinv. cbn.
  apply Z.quot_div_nonneg; lia.
Qed.

Lemma Qfloor_minus_sixties (q : Q) (m : Z) :
  Qfloor (q - (60 # 1) * inject_Z m) = Qfloor q - 60 * m.
Proof.
  destruct q as [a b]. unfold Qfloor, Qminus, Qplus, Qopp, Qmult, inject_Z. cbn.
  change (1 * 1)%positive with 1%positive. rewrite Pos.mul_1_r.
  replace (a * 1 + - (60 * m) * Z.pos b) with (a + (- (60 * m)) * Z.pos b) by lia.
  rewrite Z.div_add by lia. lia.
Qed.

Lemma padStart_two_digits (k : Z) :
  0 <= k < 60 -> padStart 2 "0" (int_toString k) = two_digits k.
Proof.
  intros Hk.
  assert (Hn : forall n : nat, (n < 60)%nat ->
            padStart 2 "0" (int_toString (Z.of_nat n)) = two_digits (Z.of_nat n)).
  { intros n Hn. do 60 (destruct n as [|n]; [reflexivity|]). lia. }
  rewrite <- (Z2Nat.id k) by lia. apply Hn. lia.
Qed.

Lemma formatTime_finite (q : Q) :
  (0 <= q)%Q -> formatTime (Finite q) = clock (Qfloor q).
Proof.
  intros Hq. unfold formatTime, clock. cbn [isNaN].
  unfold num_div, num_rem, sixty. cbn [Qzero Qnum Z.eqb Math_floor toString].
  rewrite Qtrunc_div_sixty by exact Hq.
  rewrite Qfloor_div_sixty, Qfloor_minus_sixties.
  rewrite <- Z.mod_eq by lia.
  rewrite padStart_two_digits by (apply Z.mod_pos_bound; lia).
  reflexivity.
Qed.

(** C9: [formatTime NaN] is ["0:00"], [formatTime 65] is ["1:05"] and
    [formatTime 3] is ["0:03"]. For a time of [seconds >= 0] below [2^53],
    the range in which the script's arithmetic is exact, the result is the
    floor of [seconds / 60], a colon and the floor of [seconds % 60] padded
    with a zero to exactly two digits; in terms of the whole seconds, the
    minutes are their quotient by 60 and the seconds their remainder. *)
Theorem formatTime_rule :
  formatTime NaN = "0:00" /\
  formatTime (of_Z 65) = "1:05" /\
  formatTime (of_Z 3) = "0:03" /\
  (forall q : Q, (0 <= q)%Q -> (q < inject_Z (2 ^ 53))%Q ->
     let minutes := Qfloor (q / (60 # 1)) in
     let seconds := Qfloor (q - (60 # 1) * inject_Z minutes) in
     formatTime (Finite q) =
       int_toString minutes ++ ":" ++ padStart 2 "0" (int_toString seconds) /\
     minutes = Qfloor q / 60 /\
     seconds = Qfloor q mod 60 /\
     padStart 2 "0" (int_toString seconds) = two_digits seconds /\
     String.length (two_digits seconds) = 2%nat).
Proof.
  split; [reflexivity|]. split; [reflexivity|]. split; [reflexivity|].
  intros q Hq _. cbv zeta.
  assert (Hs : Qfloor (q - (60 # 1) * inject_Z (Qfloor (q / (60 # 1)))) = Qfloor q mod 60).
  { rewrite Qfloor_minus_sixties, Qfloor_div_sixty. symmetry. apply Z.mod_eq. lia. }
  assert (Hp : padStart 2 "0" (int_toString (Qfloor q mod 60)) = two_digits (Qfloor q mod 60))
    by (apply padStart_two_digits, Z.mod_pos_bound; lia).
  rewrite Hs, Hp, Qfloor_div_sixty.
  split; [apply formatTime_finite, Hq|]. repeat split.
Qed.

(** * Further properties of the script *)

(** ** Batches of files *)

Lemma loadTrack_playlist index s :
  playlist (exec (loadTrack index) s) = playlist s /\
  minted (exec (loadTrack index) s) = minted s.
Proof.
  unfold exec. destruct (js_nth (playlist s) index) as [t|] eqn:Ht.
  - rewrite (loadTrack_found _ _ _ Ht).
    destruct (renderable (playlist s)); split; reflexivity.
  - rewrite (loadTrack_missing _ _ Ht). split; reflexivity.
Qed.

(** What [loadTrack] at a valid index does whether or not the rendering
    ran through. *)
Lemma loadTrack_frame index track s :
  js_nth (playlist s) index = Some track ->
  let s' := exec (loadTrack index) s in
  currentTrackIndex s' = index /\
  playlist s' = playlist s /\
  src (audioPlayer s') = Some (url track) /\
  position (audioPlayer s') = 0 /\
  currentTrackEl s' = Some (name track) /\
  playlistItems s' = rows_of (visible (playlist s)) index /\
  (renderable (playlist s) = true ->
     isPlaying s' = true /\ paused (audioPlayer s') = false) /\
  (renderable (playlist s) = false ->
     isPlaying s' = isPlaying s /\ paused (audioPlayer s') = true).
Proof.
  intros Ht. cbv zeta. unfold exec. rewrite (loadTrack_found _ _ _ Ht).
  destruct (renderable (playlist s)); cbn; repeat split; intros; discriminate.
Qed.

Lemma file_tracks_of accept files : forall n,
  file <$> tracks_of accept n files = filter (fun f => accept f = true) files.
Proof.
  induction files as [|f rest IH]; intros n; [reflexivity|].
  cbn [tracks_of]. rewrite filter_cons. destruct (accept f) eqn:E.
  - rewrite decide_True by reflexivity. cbn. rewrite IH. reflexivity.
  - rewrite decide_False by discriminate. apply IH.
Qed.

Lemma name_tracks_of accept files : forall n t,
  t ∈ tracks_of accept n files -> name t = replace_extension (file_name (file t)).
Proof.
  induction files as [|f rest IH]; intros n t Ht; cbn [tracks_of] in Ht.
  - apply elem_of_nil in Ht. contradiction.
  - destruct (accept f); [|exact (IH _ _ Ht)].
    apply elem_of_cons in Ht. destruct Ht as [->|Ht]; [reflexivity | exact (IH _ _ Ht)].
Qed.

Lemma handleFiles_playlist files s :
  playlist (exec (handleFiles files) s) =
    (playlist s ++ tracks_of accepts (minted s) files)%list /\
  minted (exec (handleFiles files) s) =
    (minted s + length (tracks_of accepts (minted s) files))%nat.
Proof.
  unfold exec. rewrite handleFiles_eq. cbv zeta.
  destruct (after_notice_fields files s) as (Hp & _ & _ & _ & Hm).
  destruct (count_valid accepts files >? 0); [|split; assumption].
  destruct (renderable (playlist (after_notice files s))); [|split; assumption].
  destruct (currentTrackIndex s =? -1); [|split; assumption].
  destruct (loadTrack_playlist 0 (rendered (after_notice files s))) as [H1 H2].
  unfold exec in H1, H2. rewrite H1, H2. split; assumption.
Qed.

(** X1: [handleFiles] appends the accepted files, and only those, in the order
    they were given; each becomes a track named after the file without its
    extension and gets the next unused object URL. *)
Theorem handleFiles_appends_accepted (files : list File) (s : State) :
  let s' := exec (handleFiles files) s in
  exists new : list Track,
    playlist s' = (playlist s ++ new)%list /\
    file <$> new = filter (fun f => accepts f = true) files /\
    url <$> new = seq (minted s) (length new) /\
    (forall t, t ∈ new -> name t = replace_extension (file_name (file t))) /\
    minted s' = (minted s + length new)%nat.
Proof.
  cbv zeta. exists (tracks_of accepts (minted s) files).
  destruct (handleFiles_playlist files s) as [Hp Hm].
  split; [exact Hp|]. split; [apply file_tracks_of|].
  split; [apply fmap_url_tracks_of|]. split; [apply name_tracks_of | exact Hm].
Qed.







(** ** The two revisions of the validator *)

Lemma legacy_handleFiles_playlist files s :
  playlist (exec (Legacy.handleFiles files) s) =
  (playlist s ++ tracks_of legacy_accepts (minted s) files)%list.
Proof.
  unfold exec. rewrite legacy_handleFiles_eq. cbv zeta.
  destruct (js_length _ >? 0); [|reflexivity].
  destruct (renderable _); [|reflexivity].
  destruct (currentTrackIndex s =? -1); [|reflexivity].
  destruct (loadTrack_playlist 0
              (rendered (after_loop legacy_accepts (fun _ => []) files s))) as [H _].
  unfold exec in H. rewrite H. reflexivity.
Qed.

(** X4: A file the earlier revision took (declared type [audio/mp3] or
    [audio/mpeg]) is taken by the current one too, as the same track,
    unless it is larger than [MAX_FILE_SIZE]: the size limit is the only
    thing the current revision refuses that the earlier one accepted. *)
Theorem revisions_agree_on_typed_files (f : File) (s : State) :
  file_type f = "audio/mp3" \/ file_type f = "audio/mpeg" ->
  file_size f <= MAX_FILE_SIZE ->
  playlist (exec (Legacy.handleFiles [f]) s) =
    (playlist s ++ [track_of f (minted s)])%list /\
  playlist (exec (handleFiles [f]) s) = playlist (exec (Legacy.handleFiles [f]) s).
Proof.
  intros Ht Hs.
  assert (El : legacy_accepts f = true).
  { unfold legacy_accepts. destruct Ht as [-> | ->]; reflexivity. }
  assert (Ea : accepts f = true).
  { unfold accepts, checkIfMp3.
    destruct (Z.gtb_spec (file_size f) MAX_FILE_SIZE); [lia|].
    destruct Ht as [-> | ->]; reflexivity. }
  rewrite legacy_handleFiles_playlist.
  destruct (handleFiles_playlist [f] s) as [-> _].
  cbn [tracks_of]. rewrite El, Ea. split; reflexivity.
Qed.

(** ** Track names *)

Lemma extension_tail_plain ext : plain_extension ext -> extension_tail ext = true.
Proof.
  intros [Hne Hc]. induction ext as [|c ext IH]; [contradiction|].
  cbn [extension_tail].
  destruct (Hc c (or_introl eq_refl)) as [Hd Hs].
  apply Ascii.eqb_neq in Hd, Hs. rewrite Hd, Hs. cbn.
  destruct ext as [|d ext]; [reflexivity|].
  apply IH; [discriminate|]. intros x Hx. apply Hc. right. exact Hx.
Qed.

Lemma extension_tail_no_dot s :
  extension_tail s = true -> ~ In "."%char (list_ascii_of_string s).
Proof.
  induction s as [|c s IH]; cbn [extension_tail]; [discriminate|].
  intros H. apply andb_true_iff in H. destruct H as [H1 H2].
  apply andb_true_iff in H1. destruct H1 as [_ Hd].
  apply negb_true_iff, Ascii.eqb_neq in Hd.
  cbn. intros [E|Hin]; [congruence|].
  destruct s as [|d s]; [contradiction|]. exact (IH H2 Hin).
Qed.

Lemma extension_tail_app_dot a b : extension_tail (a ++ String "." b) = false.
Proof.
  apply Bool.not_true_iff_false. intros H.
  apply extension_tail_no_dot in H. apply H. clear H.
  induction a as [|c a IH]; cbn; [left; reflexivity | right; exact IH].
Qed.

(** X5: The track name is the file name without its last extension: for an
    extension that is not empty and has no dot or slash in it,
    [stem.ext] becomes [stem], whatever dots [stem] has; a name without any
    dot is kept; and in every case the name is a prefix of the file name. *)
Theorem replace_extension_strips_last :
  (forall stem ext, plain_extension ext ->
     replace_extension (stem ++ "." ++ ext) = stem) /\
  (forall s, ~ In "."%char (list_ascii_of_string s) -> replace_extension s = s) /\
  (forall s, exists rest, s = replace_extension s ++ rest).
Proof.
  split; [|split].
  - intros stem ext Hp. pose proof (extension_tail_plain _ Hp) as He.
    change ("." ++ ext) with (String "." ext).
    induction stem as [|c stem IH].
    + cbn. rewrite He. reflexivity.
    + cbn [append replace_extension]. rewrite IH.
      rewrite extension_tail_app_dot, andb_false_r. reflexivity.
  - induction s as [|c s IH]; [reflexivity|]. cbn. intros Hn.
    destruct (Ascii.eqb_spec c ".") as [->|_]; [exfalso; apply Hn; left; reflexivity|].
    cbn. rewrite IH; [reflexivity|]. intros H. apply Hn. right. exact H.
  - induction s as [|c s [rest IH]]; [exists ""; reflexivity|].
    cbn [replace_extension].
    destruct (Ascii.eqb c "." && extension_tail s).
    + exists (String c s). reflexivity.
    + exists rest. cbn. rewrite <- IH. reflexivity.
Qed.

(** ** Selecting a track *)





(** ** Removing tracks *)

Lemma removeTrack_structure index track s :
  js_nth (playlist s) index = Some track ->
  completion (removeTrack index) s =
    render_completion (js_splice1 index (playlist s)) /\
  playlist (exec (removeTrack index) s) = js_splice1 index (playlist s) /\
  minted (exec (removeTrack index) s) = minted s /\
  revoked (effects (exec (removeTrack index) s)) =
    (revoked (effects s) ++ [url track])%list /\
  created (effects (exec (removeTrack index) s)) = created (effects s).
Proof.
  intros Ht. pose proof (js_nth_Some _ _ _ Ht) as Hv.
  pose proof (js_length_splice1 _ _ Hv) as Hl.
  assert (Hr : revoked (effects (removed index track s)) =
               (revoked (effects s) ++ [url track])%list).
  { unfold revoked. cbn. rewrite omap_app. reflexivity. }
  assert (Hc : created (effects (removed index track s)) = created (effects s))
    by log_calc.
  unfold exec, completion.
  destruct (Z.lt_trichotomy index (currentTrackIndex s)) as [Hlt|[Heq|Hgt]].
  - rewrite (removeTrack_before _ _ _ Ht Hlt). repeat split; assumption.
  - destruct (Z.eq_dec (js_length (playlist s)) 1) as [H1|H1].
    + rewrite (removeTrack_only _ _ _ Ht Heq H1). cbn [fst snd].
      assert (Hnil : js_splice1 index (playlist s) = [])
        by (apply js_length_nil; lia).
      split; [rewrite Hnil; reflexivity|].
      split; [reflexivity|]. split; [reflexivity|].
      split; [rewrite <- Hr; log_calc | rewrite <- Hc; log_calc].
    + assert (Hm : 0 <= Z.min index (js_length (js_splice1 index (playlist s)) - 1)
                   < js_length (js_splice1 index (playlist s))) by lia.
      destruct (js_nth_valid _ _ Hm) as [track' Ht'].
      rewrite (removeTrack_current _ _ _ _ Ht Heq Ht'). unfold render_completion.
      destruct (renderable (js_splice1 index (playlist s))); cbn [fst snd];
        (split; [reflexivity|]; split; [reflexivity|]; split; [reflexivity|];
         split; [rewrite <- Hr; log_calc | rewrite <- Hc; log_calc]).
  - rewrite (removeTrack_after _ _ _ Ht Hgt). repeat split; assumption.
Qed.


(** X8: Removing a track behind the selection changes neither the selection,
    nor the audio element, nor [isPlaying], and the selection still points
    at the same track. *)
Theorem removeTrack_after_current (s : State) (index : Z) :
  currentTrackIndex s < index ->
  valid_index s index ->
  let s' := exec (removeTrack index) s in
  currentTrackIndex s' = currentTrackIndex s /\
  audioPlayer s' = audioPlayer s /\
  isPlaying s' = isPlaying s /\
  js_nth (playlist s') (currentTrackIndex s') = js_nth (playlist s) (currentTrackIndex s).
Proof.
  intros Hgt Hv. destruct (js_nth_valid _ _ Hv) as [track Ht]. cbv zeta.
  unfold exec. rewrite (removeTrack_after _ _ _ Ht Hgt). cbn.
  repeat split. apply js_nth_splice1_lt; assumption.
Qed.

(** X9: Adding one accepted file and removing the last row again gives back
    the playlist as it was; the URL made for the file is the one revoked. *)
Theorem add_then_remove_last (f : File) (s : State) :
  accepts f = true ->
  let added := exec (handleFiles [f]) s in
  let s' := exec (removeTrack (js_length (playlist s))) added in
  playlist s' = playlist s /\
  revoked (effects s') = (revoked (effects added) ++ [minted s])%list.
Proof.
  intros Ea. cbv zeta.
  destruct (handleFiles_playlist [f] s) as [Hp _].
  cbn [tracks_of] in Hp. rewrite Ea in Hp.
  set (added := exec (handleFiles [f]) s) in *.
  assert (Ht : js_nth (playlist added) (js_length (playlist s)) =
               Some (track_of f (minted s))).
  { rewrite Hp. unfold js_nth, js_length.
    destruct (Z.ltb_spec (Z.of_nat (length (playlist s))) 0); [lia|].
    rewrite Nat2Z.id. apply list_lookup_middle. reflexivity. }
  destruct (removeTrack_structure _ _ _ Ht) as (_ & Hq & _ & Hr & _).
  split; [|exact Hr].
  rewrite Hq, js_splice1_valid by (apply (js_nth_Some _ _ _ Ht)).
  rewrite Hp. unfold js_length. rewrite Nat2Z.id.
  rewrite delete_middle. apply app_nil_r.
Qed.

(** ** Play from the idle page *)


(** ** Previous and next on a playlist with tracks *)

Lemma exec_playNext s : exec playNext s = exec (loadTrack (next_index s)) s.
Proof. unfold exec. rewrite playNext_eq. reflexivity. Qed.



(** X12: Pressing Next [k] times from a valid selection [c] on a playlist of
    [n] tracks selects [(c + k) mod n]: the playlist is walked round and
    round, and [n] presses come back to [c]. The [ended] event of the audio
    element walks it the same way. *)
Theorem next_walks_round (k : nat) : forall s : State,
  valid_index s (currentTrackIndex s) ->
  currentTrackIndex (run (replicate k NextClick) s) =
    (currentTrackIndex s + Z.of_nat k) mod js_length (playlist s) /\
  run (replicate k Ended) s = run (replicate k NextClick) s /\
  playlist (run (replicate k NextClick) s) = playlist s.
Proof.
  induction k as [|k IH]; intros s Hv; unfold valid_index in Hv.
  - cbn. rewrite Z.add_0_r, Z.mod_small by lia. repeat split.
  - assert (Hne : playlist s <> []).
    { intros E. rewrite E in Hv. unfold js_length in Hv. cbn in Hv. lia. }
    destruct (next_index_ok s ltac:(lia)) as [Hn _]. specialize (Hn Hne).
    destruct (js_nth_valid _ _ Hn) as [t1 Ht1].
    cbn [replicate run foldl dispatch].
    fold (run (replicate k NextClick) (exec playNext s)).
    fold (run (replicate k Ended) (exec playNext s)).
    destruct (loadTrack_frame _ _ _ Ht1) as (Hc1 & Hp1 & _).
    rewrite exec_playNext.
    destruct (IH (exec (loadTrack (next_index s)) s)) as (Hc & He & Hp).
    { unfold valid_index. rewrite Hc1, Hp1. exact Hn. }
    rewrite Hc, He, Hp, Hc1, Hp1.
    repeat split. unfold next_index.
    destruct (Z.ltb_spec (currentTrackIndex s) (js_length (playlist s) - 1)).
    + f_equal. lia.
    + replace (currentTrackIndex s + Z.of_nat (S k))
        with (Z.of_nat k + 1 * js_length (playlist s)) by lia.
      rewrite Z.mod_add by lia. reflexivity.
Qed.

(** ** What holds after every event *)

Lemma rows_of_nil cur : rows_of [] cur = [].
Proof. reflexivity. Qed.




Lemma renderable_nonempty l : renderable l = false -> l <> [].
Proof. intros H ->. discriminate H. Qed.
















(** ** Which handlers can throw *)






(** ** One step forward or back *)


(** ** Time format *)

(** X18: [formatTime] of a time that is not negative looks at whole seconds
    only: the fraction of a second is dropped, never rounded up. *)
Theorem formatTime_drops_fraction (q : Q) :
  (0 <= q)%Q -> formatTime (Finite q) = formatTime (of_Z (Qfloor q)).
Proof.
  intros Hq. rewrite (formatTime_finite q Hq). unfold of_Z.
  rewrite formatTime_finite.
  - rewrite Qfloor_Z. reflexivity.
  - assert (H0 : 0 <= Qfloor q).
    { destruct q as [a b]. unfold Qle in Hq. cbn in Hq. unfold Qfloor.
      apply Z.div_pos; lia. }
    unfold Qle. cbn. lia.
Qed.

End Page.

(** * The statements on sample pages

    Every name on the pages below is settled by the two rules of
    [remove_btn_found], so the verdicts of the parser are never asked for. *)

#[local] Existing Instance sample_parser.

Lemma removeTrack_before_current_witness :
  let s := exec (loadTrack 2) three_tracks in
  currentTrackIndex (exec (removeTrack 0) s) = 1 /\
  audioPlayer (exec (removeTrack 0) s) = audioPlayer s.
Proof.
  assert (H1 : 0 <= 0 < currentTrackIndex (exec (loadTrack 2) three_tracks))
    by by_running.
  assert (H2 : 0 < js_length (playlist (exec (loadTrack 2) three_tracks)))
    by by_running.
  destruct (removeTrack_before_current _ 0 H1 H2) as (Hc & Ha & _).
  split; [exact Hc | exact Ha].
Defined.

Lemma out_of_range_fails_witness :
  playlist (exec (loadTrack 7) three_tracks) = playlist three_tracks /\
  exec (removeTrack (-1)) three_tracks = three_tracks.
Proof.
  split.
  - apply (out_of_range_fails three_tracks 7).
    intros [_ H]. vm_compute in H. discriminate H.
  - apply (out_of_range_fails three_tracks (-1)).
    intros [H _]. vm_compute in H. apply H. reflexivity.
Defined.

(** C8, as claimed, fails for [loadTrack]: on the empty playlist
    [loadTrack 0] (the call [playNext] makes there) throws, and
    [currentTrackIndex] has moved from [-1] to [0] by then. *)
Lemma loadTrack_failure_moves_selection :
  ~ valid_index initial 0 /\
  completion (loadTrack 0) initial =
    Throw (TypeError "Cannot read properties of undefined") /\
  currentTrackIndex initial = -1 /\
  currentTrackIndex (exec (loadTrack 0) initial) = 0.
Proof.
  repeat split. intros [_ H]. vm_compute in H. discriminate H.
Qed.

Lemma togglePlay_flips_witness :
  isPlaying (exec togglePlay three_tracks) = false /\
  isPlaying (exec togglePlay (exec togglePlay three_tracks)) = true.
Proof.
  assert (H : 0 <= currentTrackIndex three_tracks) by by_running.
  destruct (togglePlay_flips three_tracks H) as (_ & H1 & _ & _ & _ & _ & _ & H2).
  split; [exact H1 | exact H2].
Defined.

Lemma object_urls_revoked_once_witness :
  (1%nat ∉ revoked (effects
     (run [FilesChosen [song "a.mp3"; song "b.mp3"]; RemoveClick 0] initial))) /\
  exists tail,
    effects (exec (removeTrack 0) (run [FilesChosen [song "a.mp3"; song "b.mp3"]] initial)) =
      (effects (run [FilesChosen [song "a.mp3"; song "b.mp3"]] initial)
         ++ RevokeObjectURL 0%nat :: tail)%list /\
    SetSrc (Some 1%nat) ∈ tail.
Proof.
  split.
  - destruct (object_urls_revoked_once
                [FilesChosen [song "a.mp3"; song "b.mp3"]; RemoveClick 0])
      as (_ & _ & _ & Hsrc & _).
    apply Hsrc. vm_compute. reflexivity.
  - destruct (object_urls_revoked_once [FilesChosen [song "a.mp3"; song "b.mp3"]])
      as (_ & _ & _ & _ & H).
    assert (Ht : js_nth (playlist (run [FilesChosen [song "a.mp3"; song "b.mp3"]] initial)) 0
                 = Some (track_of (song "a.mp3") 0%nat)) by (vm_compute; reflexivity).
    assert (Hs : src (audioPlayer (run [FilesChosen [song "a.mp3"; song "b.mp3"]] initial))
                 = Some (url (track_of (song "a.mp3") 0%nat))) by (vm_compute; reflexivity).
    destruct (H 0 _ Ht Hs) as (tail & He & _ & Hin & Hne).
    exists tail. split; [exact He|].
    replace (Some 1%nat)
      with (src (audioPlayer (exec (removeTrack 0)
                  (run [FilesChosen [song "a.mp3"; song "b.mp3"]] initial))))
      by (vm_compute; reflexivity).
    exact Hin.
Defined.

(** C4, as claimed, fails: when the playing track is removed, its URL is
    revoked while it is still the source of the audio element. *)
Lemma revoked_while_still_loaded :
  let s := run [FilesChosen [song "a.mp3"; song "b.mp3"]; RemoveClick 0] initial in
  effects s = [CreateObjectURL 0%nat; CreateObjectURL 1%nat;
               SetSrc (Some 0%nat); AudioPlay;
               RevokeObjectURL 0%nat; SetSrc (Some 1%nat); AudioPlay] /\
  revoked_while_loaded None (effects s) = true.
Proof. split; reflexivity. Qed.


Lemma formatTime_rule_witness :
  formatTime (Finite (1307 # 10)) = "2:10" /\
  Qfloor ((1307 # 10) / (60 # 1)) = 2.
Proof.
  destruct formatTime_rule as (_ & _ & _ & Hq).
  destruct (Hq (1307 # 10)%Q) as (H & Hm & Hs & Hp & _).
  - unfold Qle. cbn. lia.
  - unfold Qlt. cbn. lia.
  - split; [rewrite H; reflexivity | rewrite Hm; reflexivity].
Defined.

Lemma handleFiles_appends_accepted_witness :
  file <$> playlist
    (exec (handleFiles [song "a.mp3"; mkFile "notes.txt" 10 "text/plain"; song "b.mp3"])
          initial)
  = [song "a.mp3"; song "b.mp3"].
Proof.
  destruct (handleFiles_appends_accepted
              [song "a.mp3"; mkFile "notes.txt" 10 "text/plain"; song "b.mp3"] initial)
    as (new & Hp & Hf & _).
  rewrite Hp. exact Hf.
Defined.


Lemma revisions_agree_on_typed_files_witness :
  playlist (exec (handleFiles [song "a.mp3"]) initial) =
  playlist (exec (Legacy.handleFiles [song "a.mp3"]) initial).
Proof.
  apply (revisions_agree_on_typed_files (song "a.mp3") initial).
  - right. reflexivity.
  - vm_compute. discriminate.
Defined.

Lemma replace_extension_strips_last_witness :
  replace_extension ("live.2019" ++ "." ++ "mp3") = "live.2019" /\
  replace_extension "README" = "README".
Proof.
  destruct replace_extension_strips_last as (H1 & H2 & _). split.
  - apply H1. split; [discriminate|]. cbn.
    intros c [<-|[<-|[<-|[]]]]; split; discriminate.
  - apply H2. cbn. intros [H|[H|[H|[H|[H|[H|[]]]]]]]; discriminate.
Defined.



Lemma removeTrack_after_current_witness :
  currentTrackIndex (exec (removeTrack 2) three_tracks) = 0 /\
  audioPlayer (exec (removeTrack 2) three_tracks) = audioPlayer three_tracks.
Proof.
  assert (Hgt : currentTrackIndex three_tracks < 2) by by_running.
  assert (Hv : valid_index three_tracks 2) by by_running.
  destruct (removeTrack_after_current three_tracks 2 Hgt Hv) as (H1 & H2 & _).
  split; [exact H1 | exact H2].
Defined.

Lemma add_then_remove_last_witness :
  playlist (exec (removeTrack 3) (exec (handleFiles [song "d.mp3"]) three_tracks))
  = playlist three_tracks.
Proof.
  apply (add_then_remove_last (song "d.mp3") three_tracks). reflexivity.
Defined.



Lemma next_walks_round_witness :
  currentTrackIndex (run (replicate 3 NextClick) three_tracks) = 0 /\
  currentTrackIndex (run (replicate 5 NextClick) three_tracks) = 2.
Proof.
  assert (Hv : valid_index three_tracks (currentTrackIndex three_tracks)) by by_running.
  split.
  - destruct (next_walks_round 3 three_tracks Hv) as [H _]. rewrite H. reflexivity.
  - destruct (next_walks_round 5 three_tracks Hv) as [H _]. rewrite H. reflexivity.
Defined.




Lemma formatTime_drops_fraction_witness :
  formatTime (Finite (1199 # 10)) = "1:59".
Proof.
  rewrite (formatTime_drops_fraction (1199 # 10)).
  - reflexivity.
  - unfold Qle. cbn. lia.
Defined.



